(** * Test_Case_Generator front-end: file tree and backend gateway

    A shallow embedding of [frontend/components/FileTree.jsx] (the helpers
    [buildTree], [toggleNode] and the [toggleDir] state update) and of
    [frontend/lib/backend.js] (the gateway functions, [normalizeAxiosError]
    and [flattenFiles]).

    JavaScript strings are modelled by [string], one [ascii] per code unit
    (code units below 256).  JavaScript objects that the code builds,
    shares and mutates live in an explicit store; values that only travel
    as data (JSON bodies, arguments) are an inductive type of dynamic
    values. *)

From Stdlib Require Import ZArith Ascii.
From stdpp Require Import base option list sets strings pretty.

Set Warnings "-register-all,-clear-no-such-hyp".

(** ** JavaScript string primitives *)

Module JsString.

(** [s.split(sep)] for a one-character separator: the result always has
    at least one element, [''.split('/')] being [['']]. *)
Fixpoint split (sep : ascii) (s : string) : list string :=
  match s with
  | EmptyString => [EmptyString]
  | String c s' =>
      if Ascii.eqb c sep then EmptyString :: split sep s'
      else match split sep s' with
           | [] => [String c EmptyString]
           | w :: ws => String c w :: ws
           end
  end.

(** [parts.join(sep)] on an array of strings. *)
Fixpoint join (sep : string) (parts : list string) : string :=
  match parts with
  | [] => EmptyString
  | [w] => w
  | w :: ws => w +:+ sep +:+ join sep ws
  end.

(** Truthiness of a string: only [''] is falsy. *)
Definition truthy (s : string) : bool :=
  match s with EmptyString => false | String _ _ => true end.

(** The characters [String.prototype.trim] strips, among code units
    below 256: TAB, LF, VT, FF, CR, SPACE and NBSP. *)
Definition is_space (c : ascii) : bool :=
  let n := nat_of_ascii c in
  (Nat.leb 9 n && Nat.leb n 13) || Nat.eqb n 32 || Nat.eqb n 160.

Fixpoint trim_start (s : string) : string :=
  match s with
  | EmptyString => EmptyString
  | String c s' => if is_space c then trim_start s' else s
  end.

(** Drops the trailing white space; a string of white space only
    becomes empty. *)
Fixpoint trim_end (s : string) : string :=
  match s with
  | EmptyString => EmptyString
  | String c s' =>
      match trim_end s' with
      | EmptyString => if is_space c then EmptyString else String c EmptyString
      | t => String c t
      end
  end.

Definition trim (s : string) : string := trim_end (trim_start s).

(** [s.endsWith(suffix)] *)
Definition endsWith (s suffix : string) : bool :=
  let n := String.length s in
  let m := String.length suffix in
  Nat.leb m n && String.eqb (String.substring (n - m) m s) suffix.

(** [s.slice(0, -k)] for a positive [k]. *)
Definition drop_last (k : nat) (s : string) : string :=
  String.substring 0 (String.length s - k) s.

(** [encodeURIComponent]: the characters it keeps, and the UTF-8
    percent-encoding of the others. *)
Definition unreserved (c : ascii) : bool :=
  let n := nat_of_ascii c in
  (Nat.leb 65 n && Nat.leb n 90) || (Nat.leb 97 n && Nat.leb n 122)
  || (Nat.leb 48 n && Nat.leb n 57)
  || bool_decide (n ∈ [45; 95; 46; 33; 126; 42; 39; 40; 41]).

Definition hex_digit (n : nat) : ascii :=
  nth n (String.list_ascii_of_string "0123456789ABCDEF") "0"%char.

Definition percent (b : nat) : string :=
  String "%" (String (hex_digit (b / 16)) (String (hex_digit (b mod 16)) EmptyString)).

Definition encode_unit (c : ascii) : string :=
  let n := nat_of_ascii c in
  if unreserved c then String c EmptyString
  else if Nat.ltb n 128 then percent n
  else percent (192 + n / 64) +:+ percent (128 + n mod 64).

Fixpoint encodeURIComponent (s : string) : string :=
  match s with
  | EmptyString => EmptyString
  | String c s' => encode_unit c +:+ encodeURIComponent s'
  end.

(** No character of [s] is the separator. *)
Fixpoint no_sep (sep : ascii) (s : string) : bool :=
  match s with
  | EmptyString => true
  | String c s' => negb (Ascii.eqb c sep) && no_sep sep s'
  end.

End JsString.

(** ** The file tree of [FileTree.jsx] *)

Module FileTree.

(** What [fetchRepoFiles] hands to [buildTree]. *)
Record FlatFileEntry := { path : string; size : Z }.

(** *** Tree values

    A node as a value (what deep equality compares): [type: 'file'] with
    [name], [path], [size], or [type: 'dir'] with [name], [path],
    [expanded] and [children]. *)
Inductive node :=
| File (name path : string) (size : Z)
| Dir (name path : string) (expanded : bool) (children : list node).

(** *** The store

    [buildTree] pushes into arrays it reaches through [current], and
    [toggleNode] returns either its argument or a fresh object, so node
    objects and arrays are kept in a store and named by their address.
    The address is the object's identity. *)
Abbreviation addr := nat (only parsing).

Inductive obj :=
| OFile (name path : string) (size : Z)
| ODir (name path : string) (expanded : bool) (children : addr)
| OArr (elems : list addr).

Abbreviation heap := (list obj) (only parsing).

(** An object or array literal: a new address, nothing else changes. *)
Definition alloc (h : heap) (o : obj) : heap * addr := (h ++ [o], length h).

Definition elems (h : heap) (a : addr) : option (list addr) :=
  match h !! a with Some (OArr es) => Some es | _ => None end.

(** [arr.push(x)]: in place. *)
Definition push (arr x : addr) (h : heap) : option heap :=
  es ← elems h arr; Some (<[arr := OArr (es ++ [x])]> h).

(** The callback of [current.find(n => n.type === 'dir' && n.name === name)].
    The arrays of the tree only ever contain node objects. *)
Definition is_dir_named (h : heap) (name : string) (n : addr) : bool :=
  match h !! n with
  | Some (ODir nm _ _ _) => String.eqb nm name
  | _ => false
  end.

Definition children_of (h : heap) (dir : addr) : option addr :=
  match h !! dir with Some (ODir _ _ _ c) => Some c | _ => None end.

(** [currentPath ? `${currentPath}/${name}` : name] *)
Definition extend (currentPath name : string) : string :=
  if JsString.truthy currentPath then currentPath +:+ "/" +:+ name else name.

(** The inner loop of [buildTree], from index [i] on: [parts] is
    [parts[i..]], so [isLast] is "nothing follows [name]". *)
Fixpoint insertParts (parts : list string) (sz : Z) (currentPath : string)
    (current : addr) (h : heap) : option heap :=
  match parts with
  | [] => Some h
  | name :: rest =>
      let currentPath := extend currentPath name in
      match rest with
      | [] =>
          let '(h, file) := alloc h (OFile name currentPath sz) in
          push current file h
      | _ :: _ =>
          es ← elems h current;
          match List.find (is_dir_named h name) es with
          | Some dir =>
              children ← children_of h dir;
              insertParts rest sz currentPath children h
          | None =>
              let '(h, children) := alloc h (OArr []) in
              let '(h, dir) := alloc h (ODir name currentPath true children) in
              h ← push current dir h;
              insertParts rest sz currentPath children h
          end
      end
  end.

(** The outer loop: one pass of the inner loop per entry, from [root]
    and the empty [currentPath]. *)
Fixpoint insertFiles (files : list FlatFileEntry) (root : addr) (h : heap)
    : option heap :=
  match files with
  | [] => Some h
  | f :: files =>
      h ← insertParts (JsString.split "/" (path f)) (size f) "" root h;
      insertFiles files root h
  end.

(** [buildTree(files)]: the store it leaves and the address of [root].
    (The object [map] that the function also creates is never used.) *)
Definition buildTree (files : list FlatFileEntry) : option (heap * addr) :=
  let '(h, root) := alloc [] (OArr []) in
  h ← insertFiles files root h;
  Some (h, root).

(** [arr.map(f)] for a callback that allocates: the callback runs on
    the elements from left to right. *)
Fixpoint map_alloc (f : addr -> heap -> option (heap * addr))
    (es : list addr) (h : heap) : option (heap * list addr) :=
  match es with
  | [] => Some (h, [])
  | e :: es =>
      '(h, e') ← f e h;
      '(h, es') ← map_alloc f es h;
      Some (h, e' :: es')
  end.

(** [toggleNode(node, path)].  A directory object always has its
    [children] array, so [node.type === 'dir' && node.children] is
    [node.type === 'dir'].  [{...node, expanded: !node.expanded}] is a new
    object with the same [children] array; [{...node, children:
    node.children.map(...)}] is a new object with a new array.  The
    recursion follows the pointers of the store, so it is bounded by
    [fuel]; [toggleNode_total] shows that the height of the tree is
    enough.  The store is only extended. *)
Fixpoint toggleNode (fuel : nat) (pth : string) (nd : addr) (h : heap)
    : option (heap * addr) :=
  match fuel with
  | O => None
  | S fuel =>
      o ← h !! nd;
      match o with
      | OFile _ _ _ => Some (h, nd)
      | ODir name p expanded children =>
          if String.eqb p pth then
            Some (alloc h (ODir name p (negb expanded) children))
          else
            es ← elems h children;
            '(h, es') ← map_alloc (toggleNode fuel pth) es h;
            let '(h, children') := alloc h (OArr es') in
            Some (alloc h (ODir name p expanded children'))
      | OArr _ => None
      end
  end.

(** [toggleDir]: [prev => prev.map(n => toggleNode(n, path))]. *)
Definition toggleDir (fuel : nat) (pth : string) (prev : addr) (h : heap)
    : option (heap * addr) :=
  es ← elems h prev;
  '(h, es') ← map_alloc (toggleNode fuel pth) es h;
  Some (alloc h (OArr es')).

(** *** Trees of located objects

    A tree whose nodes carry the address of their object, and, for a
    directory, the address of its [children] array.  It is what a store
    holds below an address; forgetting the addresses gives the value. *)
Inductive lnode :=
| LFile (a : addr) (name path : string) (size : Z)
| LDir (a : addr) (name path : string) (expanded : bool) (arr : addr)
       (children : list lnode).

Definition addr_of (t : lnode) : addr :=
  match t with LFile a _ _ _ | LDir a _ _ _ _ _ => a end.

Fixpoint erase (t : lnode) : node :=
  match t with
  | LFile _ n p s => File n p s
  | LDir _ n p e _ kids => Dir n p e (erase <$> kids)
  end.

(** Every address of the tree: node objects and arrays. *)
Fixpoint locs (t : lnode) : list addr :=
  match t with
  | LFile a _ _ _ => [a]
  | LDir a _ _ _ c kids => a :: c :: (kids ≫= locs)
  end.

(** The store holds the tree [t]. *)
Inductive holds (h : heap) : lnode -> Prop :=
| holds_file a n p s :
    h !! a = Some (OFile n p s) -> holds h (LFile a n p s)
| holds_dir a n p e c kids :
    h !! a = Some (ODir n p e c) ->
    h !! c = Some (OArr (addr_of <$> kids)) ->
    Forall (holds h) kids ->
    holds h (LDir a n p e c kids).

(** The array at [r] holds the forest [ts]. *)
Definition forest_at (h : heap) (r : addr) (ts : list lnode) : Prop :=
  h !! r = Some (OArr (addr_of <$> ts)) /\ Forall (holds h) ts.

(** No object or array is reached twice. *)
Definition separate (r : addr) (ts : list lnode) : Prop :=
  NoDup (r :: (ts ≫= locs)).

(** *** The functional reading of [buildTree]

    What the loops compute, on tree values: the spine from the root to
    the level the entry lands in is rebuilt instead of updated in
    place.  [buildTree_refines] relates the two. *)
Definition is_dir_node (name : string) (n : node) : bool :=
  match n with
  | Dir nm _ _ _ => String.eqb nm name
  | File _ _ _ => false
  end.

(** Find-or-create the directory [name] in [current] and apply [k] to
    its children. *)
Fixpoint descend (name currentPath : string) (k : list node -> list node)
    (current : list node) : list node :=
  match current with
  | [] => [Dir name currentPath true (k [])]
  | n :: ns =>
      match n with
      | Dir nm p e kids =>
          if String.eqb nm name then Dir nm p e (k kids) :: ns
          else n :: descend name currentPath k ns
      | File _ _ _ => n :: descend name currentPath k ns
      end
  end.

Fixpoint place (parts : list string) (sz : Z) (currentPath : string)
    (current : list node) : list node :=
  match parts with
  | [] => current
  | name :: rest =>
      let currentPath := extend currentPath name in
      match rest with
      | [] => current ++ [File name currentPath sz]
      | _ :: _ => descend name currentPath (place rest sz currentPath) current
      end
  end.

Definition place_entry (forest : list node) (f : FlatFileEntry) : list node :=
  place (JsString.split "/" (path f)) (size f) "" forest.

Definition build (files : list FlatFileEntry) : list node :=
  fold_left place_entry files [].

(** The value [toggleNode] returns. *)
Fixpoint toggle (pth : string) (n : node) : node :=
  match n with
  | File _ _ _ => n
  | Dir nm p e kids =>
      if String.eqb p pth then Dir nm p (negb e) kids
      else Dir nm p e (toggle pth <$> kids)
  end.

(** The height of a tree value: the fuel [toggleNode] needs. *)
Fixpoint height (n : node) : nat :=
  match n with
  | File _ _ _ => 1
  | Dir _ _ _ kids => S (max_list (height <$> kids))
  end.

Definition forest_height (forest : list node) : nat :=
  max_list (height <$> forest).

(** Some directory at or below [n] has [path === pth]. *)
Fixpoint has_dir (pth : string) (n : node) : bool :=
  match n with
  | File _ _ _ => false
  | Dir _ p _ kids => String.eqb p pth || existsb (has_dir pth) kids
  end.

(** How the located tree [toggleNode] returns relates to the one it was
    given, in a store that had [old] objects: a file is the object it
    was; a directory whose [path] is the target is a new object that
    keeps the [children] array, hence everything below it; any other
    directory is a new object with a new [children] array. *)
Inductive toggled (pth : string) (old : nat) : lnode -> lnode -> Prop :=
| toggled_file a nm p s :
    toggled pth old (LFile a nm p s) (LFile a nm p s)
| toggled_target a a' nm e c kids :
    old <= a' ->
    toggled pth old (LDir a nm pth e c kids) (LDir a' nm pth (negb e) c kids)
| toggled_other a a' nm p e c c' kids kids' :
    p <> pth -> old <= a' -> old <= c' ->
    Forall2 (toggled pth old) kids kids' ->
    toggled pth old (LDir a nm p e c kids) (LDir a' nm p e c' kids').

Definition toggle_forest (pth : string) (forest : list node) : list node :=
  toggle pth <$> forest.

(** *** Notions of the specification *)

(** [buildTree(files)] returns a forest of value [forest]. *)
Definition builds (files : list FlatFileEntry) (forest : list node) : Prop :=
  exists h root ts,
    buildTree files = Some (h, root) /\
    forest_at h root ts /\ separate root ts /\ erase <$> ts = forest.

(** The number of file nodes, at all depths. *)
Fixpoint count_files (n : node) : nat :=
  match n with
  | File _ _ _ => 1
  | Dir _ _ _ kids => sum_list (count_files <$> kids)
  end.

(** The file nodes at and below [n], each as the entry one reads off
    the tree: the names of its ancestors and its own name joined by
    ['/'], and its size. *)
Fixpoint entries_of (ancestors : list string) (n : node)
    : list FlatFileEntry :=
  match n with
  | File name _ sz =>
      [{| path := JsString.join "/" (ancestors ++ [name]); size := sz |}]
  | Dir name _ _ kids => kids ≫= entries_of (ancestors ++ [name])
  end.

(** The names of the directory nodes of one level. *)
Definition dir_names (level : list node) : list string :=
  omap (fun n => match n with Dir nm _ _ _ => Some nm | File _ _ _ => None end)
       level.

(** Below [n], no level has two directories of one name, and every
    directory is expanded. *)
Inductive synthesized : node -> Prop :=
| synthesized_file n p s : synthesized (File n p s)
| synthesized_dir n p kids :
    NoDup (dir_names kids) -> Forall synthesized kids ->
    synthesized (Dir n p true kids).

Definition level_ok (level : list node) : Prop :=
  NoDup (dir_names level) /\ Forall synthesized level.

(** The names from the root down to each directory node at or below
    [n]; their ['/']-join is the path prefix the directory stands for. *)
Fixpoint dir_chains (ancestors : list string) (n : node) : list (list string) :=
  match n with
  | File _ _ _ => []
  | Dir name _ _ kids =>
      (ancestors ++ [name]) :: (kids ≫= dir_chains (ancestors ++ [name]))
  end.

Definition dir_prefixes (forest : list node) : list string :=
  JsString.join "/" <$> (forest ≫= dir_chains []).

(** Every name in the tree. *)
Fixpoint node_names (n : node) : list string :=
  match n with
  | File name _ _ => [name]
  | Dir name _ _ kids => name :: (kids ≫= node_names)
  end.

(** No directory of this name in the level. *)
Definition no_dir name (l : list node) : Prop :=
  Forall (fun n => is_dir_node name n = false) l.

(** *** Sample inputs *)

Definition two_files : list FlatFileEntry :=
  [ {| path := "a/b.js"; size := 10%Z |}; {| path := "a/c.js"; size := 20%Z |} ].

Definition two_dirs : list FlatFileEntry :=
  [ {| path := "a/x.js"; size := 1%Z |}; {| path := "b/y.js"; size := 2%Z |} ].

(** The store [buildTree two_dirs] leaves, and the forest it holds. *)
Definition two_dirs_heap : list obj :=
  [ OArr [2; 5]; OArr [3]; ODir "a" "a" true 1; OFile "x.js" "a/x.js" 1%Z;
    OArr [6]; ODir "b" "b" true 4; OFile "y.js" "b/y.js" 2%Z ].

Definition two_dirs_forest : list lnode :=
  [ LDir 2 "a" "a" true 1 [LFile 3 "x.js" "a/x.js" 1%Z];
    LDir 5 "b" "b" true 4 [LFile 6 "y.js" "b/y.js" 2%Z] ].

End FileTree.

(** ** The gateway of [backend.js] *)

Module Backend.

(** *** Dynamic values

    What travels as data: arguments, JSON bodies, axios responses and
    errors.  An object is what its property lookup answers, [undefined]
    for a property it lacks; numbers are the integers. *)
Inductive jsval :=
| JUndefined
| JNull
| JBool (b : bool)
| JNum (n : Z)
| JStr (s : string)
| JArr (items : list jsval)
| JObj (prop : string -> jsval).

(** An object literal. *)
Fixpoint obj (fields : list (string * jsval)) : jsval :=
  match fields with
  | [] => JObj (fun _ => JUndefined)
  | (k, v) :: rest =>
      JObj (fun key => if String.eqb key k then v
                       else match obj rest with JObj f => f key | _ => JUndefined end)
  end.

(** [v.key], for the keys the code reads ([name], [type], [data], ...):
    none of them is a property of an array, a string or a number. *)
Definition get (v : jsval) (key : string) : jsval :=
  match v with JObj prop => prop key | _ => JUndefined end.

(** [!!v] *)
Definition truthy (v : jsval) : bool :=
  match v with
  | JUndefined | JNull => false
  | JBool b => b
  | JNum n => negb (Z.eqb n 0)
  | JStr s => JsString.truthy s
  | JArr _ | JObj _ => true
  end.

(** [a || b] *)
Definition or_else (a b : jsval) : jsval := if truthy a then a else b.

(** [typeof v === 'object'] *)
Definition is_object (v : jsval) : bool :=
  match v with JNull | JArr _ | JObj _ => true | _ => false end.

(** [v === 'literal'] *)
Definition is_str (v : jsval) (s : string) : bool :=
  match v with JStr t => String.eqb t s | _ => false end.

(** [String(v)], also what a template literal does to [v].  Integers
    print in decimal (as JavaScript does below 10^21). *)
Fixpoint to_string (v : jsval) : string :=
  match v with
  | JUndefined => "undefined"
  | JNull => "null"
  | JBool true => "true"
  | JBool false => "false"
  | JNum n => pretty n
  | JStr s => s
  | JArr items =>
      JsString.join ","
        ((fix each (items : list jsval) : list string :=
            match items with
            | [] => []
            | x :: rest =>
                match x with
                | JUndefined | JNull => EmptyString
                | _ => to_string x
                end :: each rest
            end) items)
  | JObj _ => "[object Object]"
  end.

(** [new Error(message)], read through its [message]. *)
Definition Error (message : string) : jsval := obj [("message", JStr message)].

(** What [for (const node of n)] throws when [n] is not iterable (the
    wording of the message is the engine's). *)
Definition TypeError_not_iterable : jsval :=
  obj [("name", JStr "TypeError"); ("message", JStr "n is not iterable")].

Inductive result (A : Type) :=
| Returned (a : A)
| Thrown (e : jsval).
Arguments Returned {A} a.
Arguments Thrown {A} e.

(** *** [normalizeAxiosError] *)

Definition normalizeAxiosError (err : jsval) : jsval :=
  let response := get err "response" in
  if truthy response then
    let status := or_else (get response "status") (JStr "Unknown") in
    let statusText := or_else (get response "statusText") (JStr "Unknown Error") in
    let data := get response "data" in
    let fallback := Error (to_string status +:+ " " +:+ to_string statusText) in
    if truthy data && is_object data then
      let detail :=
        or_else (or_else (or_else (get data "detail") (get data "message"))
                         (get data "error"))
                (get data "msg") in
      match detail with
      | JStr s =>
          if JsString.truthy s && JsString.truthy (JsString.trim s)
          then Error (JsString.trim s) else fallback
      | _ => fallback
      end
    else
      match data with
      | JStr s =>
          if JsString.truthy s && JsString.truthy (JsString.trim s)
          then Error (JsString.trim s) else fallback
      | _ => fallback
      end
  else if truthy (get err "request") then
    Error "Network error: backend unreachable"
  else if truthy (get err "message") then
    Error (to_string (get err "message"))
  else if negb (truthy err) then
    Error "Unknown error occurred"
  else if negb (is_object err) then
    Error (to_string err)
  else
    Error "Unknown error occurred".

(** *** [flattenFiles] *)

Record FlatFileEntry := { path : jsval; size : jsval }.

(** [node.type || node.file_type] *)
Definition nodeType (node : jsval) : jsval :=
  or_else (get node "type") (get node "file_type").

(** [pfx ? `${pfx}/${node.name}` : node.name] *)
Definition full_path (pfx node : jsval) : jsval :=
  if truthy pfx then JStr (to_string pfx +:+ "/" +:+ to_string (get node "name"))
  else get node "name".

Definition entry_of (pfx node : jsval) : FlatFileEntry :=
  {| path := or_else (get node "path") (full_path pfx node);
     size := or_else (get node "size") (JNum 0) |}.

(** [walk(n, pfx)], pushing into [files].  [n] is [nodes] or some
    [node.children || []]: an array is iterated; a string is iterated
    character by character, and every character is skipped as a
    non-object; anything else is not iterable.  A falsy [children] makes
    [walk([], full)], which does nothing. *)
Fixpoint walk (n : jsval) (pfx : jsval) (files : list FlatFileEntry)
    : result (list FlatFileEntry) :=
  match n with
  | JArr nodes =>
      (fix each (nodes : list jsval) (files : list FlatFileEntry)
           : result (list FlatFileEntry) :=
         match nodes with
         | [] => Returned files
         | node :: rest =>
             match node with
             | JObj prop =>
                 let full := full_path pfx node in
                 let nodeType := nodeType node in
                 if is_str nodeType "file" then
                   each rest (files ++ [entry_of pfx node])
                 else if is_str nodeType "dir" || is_str nodeType "directory"
                         || truthy (prop "children") then
                   if truthy (prop "children") then
                     match walk (prop "children") full files with
                     | Returned files => each rest files
                     | Thrown e => Thrown e
                     end
                   else each rest files
                 else each rest files
             | _ => each rest files
             end
         end) nodes files
  | JStr _ => Returned files
  | _ => Thrown TypeError_not_iterable
  end.

(** [flattenFiles(nodes, prefix = '')] *)
Definition flattenFiles (nodes : jsval) : result (list FlatFileEntry) :=
  match nodes with
  | JArr _ => walk nodes (JStr "") []
  | _ => Returned []
  end.

(** *** Requests and asynchronous functions

    An [async] function is a tree: it returns, throws (its promise is
    rejected), or awaits an axios call and goes on with the outcome. *)
Inductive request :=
| GET (url : string) (timeout : Z)
| POST (url : string) (body : jsval) (timeout : Z).

(** How an axios call settles: with a response object, or rejected with
    an error. *)
Inductive outcome :=
| Resolved (res : jsval)
| Rejected (err : jsval).

Inductive prog (A : Type) :=
| Ret (a : A)
| Throw (e : jsval)
| Call (r : request) (k : outcome -> prog A).
Arguments Ret {A} a.
Arguments Throw {A} e.
Arguments Call {A} r k.

Fixpoint bind {A B} (p : prog A) (f : A -> prog B) : prog B :=
  match p with
  | Ret a => f a
  | Throw e => Throw e
  | Call r k => Call r (fun o => bind (k o) f)
  end.

(** [try { p } catch (err) { handler }] *)
Fixpoint try_catch {A} (p : prog A) (handler : jsval -> prog A) : prog A :=
  match p with
  | Ret a => Ret a
  | Throw e => handler e
  | Call r k => Call r (fun o => try_catch (k o) handler)
  end.

#[global] Instance prog_bind : MBind prog := fun A B f p => bind p f.

(** [await axios.get(...)], [await axios.post(...)] *)
Definition await (r : request) : prog jsval :=
  Call r (fun o => match o with Resolved res => Ret res | Rejected err => Throw err end).

Definition of_result {A} (r : result A) : prog A :=
  match r with Returned a => Ret a | Thrown e => Throw e end.

(** Running against a network: [net i r] is how the [i]-th call of the
    run settles when it is the request [r].  The run gives the result
    and the requests issued, in order. *)
Fixpoint run {A} (net : nat -> request -> outcome) (i : nat) (p : prog A)
    : result A * list request :=
  match p with
  | Ret a => (Returned a, [])
  | Throw e => (Thrown e, [])
  | Call r k =>
      let '(res, issued) := run net (S i) (k (net i r)) in
      (res, r :: issued)
  end.

(** *** The gateway functions *)

Section Gateway.

(** [process.env.NEXT_PUBLIC_BACKEND_URL], when set. *)
Variable NEXT_PUBLIC_BACKEND_URL : option string.

Definition BASE : string :=
  match NEXT_PUBLIC_BACKEND_URL with
  | Some url => if JsString.truthy url then url else "http://localhost:8000/api/v1"
  | None => "http://localhost:8000/api/v1"
  end.

(** [encodeURIComponent(v)] in a template literal. *)
Definition encoded (v : jsval) : string :=
  JsString.encodeURIComponent (to_string v).

(** [!paths || !Array.isArray(paths) || paths.length === 0] *)
Definition no_items (v : jsval) : bool :=
  match v with JArr (_ :: _) => false | _ => true end.

(** A parameter with a default value. *)
Definition default_to (d : string) (v : jsval) : jsval :=
  match v with JUndefined => JStr d | _ => v end.

Definition fetchRepoFiles (owner repo : jsval) : prog (list FlatFileEntry) :=
  if negb (truthy owner) || negb (truthy repo) then
    Throw (Error "Owner and repository name are required")
  else
    let url := BASE +:+ "/repos/" +:+ encoded owner +:+ "/" +:+ encoded repo
               +:+ "/files" in
    try_catch
      (res ← await (GET url 8000);
       let nodes := or_else (get (get res "data") "files") (JArr []) in
       of_result (flattenFiles nodes))
      (fun err => Throw (normalizeAxiosError err)).

Definition fetchFileContents (owner repo paths : jsval) : prog jsval :=
  if negb (truthy owner) || negb (truthy repo) then
    Throw (Error "Owner and repository name are required")
  else if no_items paths then
    Throw (Error "File paths array is required and must not be empty")
  else
    let url := BASE +:+ "/repos/file-contents" in
    try_catch
      (res ← await (POST url
                       (obj [("owner", owner); ("repo", repo); ("file_paths", paths)])
                       15000);
       Ret (or_else (or_else (get (get res "data") "files") (get res "data"))
                    (JArr [])))
      (fun err => Throw (normalizeAxiosError err)).

Definition summarizeTestsWithContent (fileContents framework : jsval)
    : prog jsval :=
  let framework := default_to "pytest" framework in
  if no_items fileContents then
    Throw (Error "File contents array is required and must not be empty")
  else
    let url := BASE +:+ "/ai/summarize-tests-with-content?framework="
               +:+ encoded framework in
    try_catch
      (res ← await (POST url fileContents 60000);
       Ret (get res "data"))
      (fun err => Throw (normalizeAxiosError err)).

Definition summarizeTests (owner repo paths framework : jsval) : prog jsval :=
  let framework := default_to "pytest" framework in
  if negb (truthy owner) || negb (truthy repo) then
    Throw (Error "Owner and repository name are required")
  else if no_items paths then
    Throw (Error "File paths array is required and must not be empty")
  else
    try_catch
      (fileContents ← fetchFileContents owner repo paths;
       let url := BASE +:+ "/ai/summarize-tests-with-content?framework="
                  +:+ encoded framework in
       res ← await (POST url fileContents 60000);
       Ret (get res "data"))
      (fun err => Throw (normalizeAxiosError err)).

Definition generateCode (fileContent summary framework : jsval) : prog jsval :=
  let framework := default_to "pytest" framework in
  if negb (truthy fileContent) then
    Throw (Error "File content is required")
  else if negb (truthy summary) then
    Throw (Error "Summary is required")
  else
    let url := BASE +:+ "/ai/generate-code?summary=" +:+ encoded summary
               +:+ "&framework=" +:+ encoded framework in
    try_catch
      (res ← await (POST url fileContent 60000);
       Ret (get res "data"))
      (fun err => Throw (normalizeAxiosError err)).

Definition generateTest (fileName fileContent scenario : jsval) : prog jsval :=
  if negb (truthy fileName) then
    Throw (Error "File name is required")
  else if negb (truthy fileContent) then
    Throw (Error "File content is required")
  else if negb (truthy scenario) then
    Throw (Error "Scenario is required")
  else
    let url := BASE +:+ "/ai/generate-test" in
    try_catch
      (res ← await (POST url
                       (obj [("file_name", fileName);
                             ("file_content", fileContent);
                             ("scenario", scenario)])
                       60000);
       Ret (get res "data"))
      (fun err => Throw (normalizeAxiosError err)).

Definition baseRoot : string :=
  if JsString.endsWith BASE "/api/v1" then JsString.drop_last 7 BASE else BASE.

Definition candidates : list string :=
  [ baseRoot +:+ "/health"; BASE +:+ "/repos/health"; BASE +:+ "/ai/health" ].

(** One turn of the loop of [checkBackendHealth]: [Some true] when the
    body returns, [None] when it falls through to the next candidate
    (another status, or a rejection, caught and logged). *)
Definition probe_one (url : string) : prog (option jsval) :=
  try_catch
    (res ← await (GET url 3000);
     match get res "status" with
     | JNum 200 => Ret (Some (JBool true))
     | _ => Ret None
     end)
    (fun err => Ret None).

Fixpoint probe (urls : list string) : prog jsval :=
  match urls with
  | [] => Ret (JBool false)
  | url :: rest =>
      returned ← probe_one url;
      match returned with
      | Some v => Ret v
      | None => probe rest
      end
  end.

Definition checkBackendHealth : prog jsval := probe candidates.

End Gateway.

(** *** Notions of the specification *)

(** A scalar argument that is missing or empty. *)
Definition missing (v : jsval) : Prop :=
  v = JUndefined \/ v = JNull \/ v = JStr "".

(** An array argument that is missing or empty. *)
Definition no_elements (v : jsval) : Prop :=
  v = JUndefined \/ v = JNull \/ v = JArr [].

Definition validation_messages : list string :=
  [ "Owner and repository name are required";
    "File paths array is required and must not be empty";
    "File contents array is required and must not be empty";
    "File content is required";
    "Summary is required";
    "File name is required";
    "Scenario is required" ].

(** The call fails at once with one of the validation messages, and no
    request is issued, whatever the network. *)
Definition rejected_locally {A} (p : prog A) : Prop :=
  exists msg, msg ∈ validation_messages /\
    forall net i, run net i p = (Thrown (Error msg), []).

(** The message a response body carries, if any: the first truthy of
    [detail], [message], [error], [msg] of an object when it is a string
    with something left after trimming, or the body itself when it is
    such a string. *)
Definition body_message (data : jsval) : option string :=
  match data with
  | JObj _ | JArr _ =>
      match or_else (or_else (or_else (get data "detail") (get data "message"))
                             (get data "error"))
                    (get data "msg") with
      | JStr s => if JsString.truthy (JsString.trim s)
                  then Some (JsString.trim s) else None
      | _ => None
      end
  | JStr s => if JsString.truthy (JsString.trim s)
              then Some (JsString.trim s) else None
  | _ => None
  end.

(** ["{status} {statusText}"], with the stand-ins for a missing part. *)
Definition status_line (response : jsval) : string :=
  to_string (or_else (get response "status") (JStr "Unknown")) +:+ " " +:+
  to_string (or_else (get response "statusText") (JStr "Unknown Error")).

(** The error axios rejects with on a non-2xx response. *)
Definition http_error (status : Z) (statusText : string) (data : jsval) : jsval :=
  obj [("response",
        obj [("status", JNum status); ("statusText", JStr statusText);
             ("data", data)]);
       ("request", obj []);
       ("message", JStr "Request failed")].

Definition files_url (env : option string) (owner repo : jsval) : string :=
  BASE env +:+ "/repos/" +:+ encoded owner +:+ "/" +:+ encoded repo +:+ "/files".

Definition contents_request (env : option string) (owner repo paths : jsval)
    : request :=
  POST (BASE env +:+ "/repos/file-contents")
       (obj [("owner", owner); ("repo", repo); ("file_paths", paths)]) 15000.

(** The candidate answered with HTTP 200. *)
Definition answers_200 (o : outcome) : bool :=
  match o with
  | Resolved res => match get res "status" with JNum 200 => true | _ => false end
  | Rejected _ => false
  end.

(** What becomes of a visited node: a file is emitted; otherwise a
    directory is recursed into, its children walked under its own
    path; anything else is dropped. *)
Inductive verdict :=
| Emit (e : FlatFileEntry)
| Recurse (children pfx : jsval)
| Drop.

Definition classify (pfx node : jsval) : verdict :=
  if negb (truthy node && is_object node) then Drop
  else if is_str (nodeType node) "file" then Emit (entry_of pfx node)
  else if is_str (nodeType node) "dir" || is_str (nodeType node) "directory"
          || truthy (get node "children")
  then Recurse (or_else (get node "children") (JArr [])) (full_path pfx node)
  else Drop.

(** The response of the specification's example. *)
Definition sample_response : jsval :=
  obj [("files",
        JArr [obj [("name", JStr "src"); ("type", JStr "dir");
                   ("children",
                    JArr [obj [("name", JStr "index.js"); ("type", JStr "file");
                               ("path", JStr "src/index.js");
                               ("size", JNum 1200)]])]])].

End Backend.

(** ** Facts about the string primitives *)

Module JsStringFacts.
Import JsString.

Lemma split_nonempty sep s : split sep s <> [].
Proof.
  destruct s as [|c s]; simpl; [discriminate|].
  destruct (Ascii.eqb c sep); [discriminate|].
  destruct (split sep s); discriminate.
Qed.

Lemma join_cons sep w ws :
  ws <> [] -> join sep (w :: ws) = w +:+ sep +:+ join sep ws.
Proof. destruct ws; [congruence | reflexivity]. Qed.

(** Joining what [split] produced gives the string back. *)
Lemma join_split (sep : ascii) (s : string) :
  join (String sep EmptyString) (split sep s) = s.
Proof.
  induction s as [|c s IH]; simpl; [reflexivity|].
  destruct (Ascii.eqb_spec c sep) as [->|Hne].
  - rewrite join_cons by apply split_nonempty. simpl. now rewrite IH.
  - pose proof (split_nonempty sep s) as Hs.
    destruct (split sep s) as [|w ws]; [congruence|].
    destruct ws as [|w' ws]; simpl in *; now rewrite <- IH.
Qed.

Lemma split_no_sep sep s : Forall (fun w => no_sep sep w = true) (split sep s).
Proof.
  induction s as [|c s IH]; simpl; [by repeat constructor|].
  destruct (Ascii.eqb c sep) eqn:Hc.
  - by constructor.
  - destruct (split sep s) as [|w ws]; [by repeat constructor; simpl; rewrite Hc|].
    apply Forall_cons in IH as [Hw Hws]. constructor; [|done].
    simpl. by rewrite Hc, Hw.
Qed.

Lemma split_word sep w : no_sep sep w = true -> split sep w = [w].
Proof.
  induction w as [|c w IH]; simpl; [done|].
  intros [Hc Hw]%andb_true_iff. apply negb_true_iff in Hc. rewrite Hc.
  by rewrite IH.
Qed.

Lemma split_word_sep sep w s :
  no_sep sep w = true ->
  split sep (w +:+ String sep s) = w :: split sep s.
Proof.
  induction w as [|c w IH]; simpl.
  - intros _. by rewrite Ascii.eqb_refl.
  - intros [Hc Hw]%andb_true_iff. apply negb_true_iff in Hc. rewrite Hc.
    by rewrite IH.
Qed.

Lemma split_join sep l :
  l <> [] -> Forall (fun w => no_sep sep w = true) l ->
  split sep (join (String sep EmptyString) l) = l.
Proof.
  induction l as [|w l IH]; [done|]. intros _ [Hw Hl]%Forall_cons.
  destruct l as [|w' l]; [by apply split_word|].
  rewrite join_cons by done.
  change (w +:+ String sep EmptyString +:+ ?x) with (w +:+ String sep x).
  rewrite split_word_sep by done. by rewrite IH.
Qed.

Lemma join_inj sep l1 l2 :
  l1 <> [] -> l2 <> [] ->
  Forall (fun w => no_sep sep w = true) l1 ->
  Forall (fun w => no_sep sep w = true) l2 ->
  join (String sep EmptyString) l1 = join (String sep EmptyString) l2 -> l1 = l2.
Proof.
  intros ? ? H1 H2 Heq.
  rewrite <- (split_join sep l1), <- (split_join sep l2) by done. by rewrite Heq.
Qed.

End JsStringFacts.

(** ** The file tree: refinement and properties *)

Module FileTreeFacts.
Import FileTree.

(** Induction on located trees, with the hypothesis for every child. *)
Lemma lnode_ind' (P : lnode -> Prop) :
  (forall a n p s, P (LFile a n p s)) ->
  (forall a n p e c kids, Forall P kids -> P (LDir a n p e c kids)) ->
  forall t, P t.
Proof.
  intros Hf Hd. fix IH 1. intros [a n p s|a n p e c kids]; [apply Hf|apply Hd].
  induction kids as [|k kids IHk]; constructor; [apply IH | exact IHk].
Qed.

Lemma node_ind' (P : node -> Prop) :
  (forall n p s, P (File n p s)) ->
  (forall n p e kids, Forall P kids -> P (Dir n p e kids)) ->
  forall t, P t.
Proof.
  intros Hf Hd. fix IH 1. intros [n p s|n p e kids]; [apply Hf|apply Hd].
  induction kids as [|k kids IHk]; constructor; [apply IH | exact IHk].
Qed.

(** *** The store *)

Lemma holds_file_inv h a n p s :
  holds h (LFile a n p s) -> h !! a = Some (OFile n p s).
Proof. now inversion 1. Qed.

Lemma holds_dir_inv h a n p e c kids :
  holds h (LDir a n p e c kids) ->
  h !! a = Some (ODir n p e c) /\
  h !! c = Some (OArr (addr_of <$> kids)) /\
  Forall (holds h) kids.
Proof. now inversion 1. Qed.

Lemma holds_lookup h t a : holds h t -> a ∈ locs t -> is_Some (h !! a).
Proof.
  revert a. induction t as [b n p s|b n p e c kids IH] using lnode_ind';
    intros a Hh Ha; simpl in Ha.
  - apply holds_file_inv in Hh. set_unfold. naive_solver.
  - apply holds_dir_inv in Hh as (Hb & Hc & Hkids).
    rewrite Forall_forall in IH, Hkids. set_unfold.
    destruct Ha as [->|[->|(k & Ha & Hk)]]; eauto.
Qed.

Lemma holds_bound h t a : holds h t -> a ∈ locs t -> a < length h.
Proof. intros Hh Ha. eapply lookup_lt_is_Some, holds_lookup; eauto. Qed.

Lemma forest_bound h ts a :
  Forall (holds h) ts -> a ∈ ts ≫= locs -> a < length h.
Proof.
  rewrite Forall_forall. intros Hh Ha. set_unfold.
  destruct Ha as (t & Ha & Ht). eapply holds_bound; eauto.
Qed.

(** A tree still holds in a store that agrees on its addresses. *)
Lemma holds_frame h h' t :
  holds h t -> (forall a, a ∈ locs t -> h' !! a = h !! a) -> holds h' t.
Proof.
  induction t as [b n p s|b n p e c kids IH] using lnode_ind';
    intros Hh Hsame.
  - apply holds_file_inv in Hh.
    constructor. rewrite Hsame; [done|]. simpl. set_solver.
  - apply holds_dir_inv in Hh as (Hb & Hc & Hkids).
    constructor.
    + rewrite Hsame; [done|]. simpl. set_solver.
    + rewrite Hsame; [done|]. simpl. set_solver.
    + rewrite Forall_forall in *. intros k Hk. apply IH; auto.
      intros a Ha. apply Hsame. simpl. set_solver.
Qed.

Lemma forest_frame h h' ts :
  Forall (holds h) ts ->
  (forall a, a ∈ ts ≫= locs -> h' !! a = h !! a) ->
  Forall (holds h') ts.
Proof.
  rewrite !Forall_forall. intros Hh Hsame t Ht.
  eapply holds_frame; [auto|]. intros a Ha. apply Hsame. set_solver.
Qed.

(** *** [find] on the store and on values *)

Lemma is_dir_named_erase h name t :
  holds h t -> is_dir_named h name (addr_of t) = is_dir_node name (erase t).
Proof.
  unfold is_dir_named. destruct t as [a n p s|a n p e c kids]; simpl.
  - intros ->%holds_file_inv. done.
  - intros (-> & _)%holds_dir_inv. done.
Qed.

Lemma find_dir_spec h name ts :
  Forall (holds h) ts ->
  match List.find (is_dir_named h name) (addr_of <$> ts) with
  | Some d =>
      exists ts1 p e c kids ts2,
        ts = ts1 ++ LDir d name p e c kids :: ts2 /\
        Forall (fun t => is_dir_node name (erase t) = false) ts1
  | None => Forall (fun t => is_dir_node name (erase t) = false) ts
  end.
Proof.
  induction 1 as [|t ts Ht Hts IH]; simpl; [constructor|].
  rewrite (is_dir_named_erase _ _ _ Ht).
  destruct (is_dir_node name (erase t)) eqn:Hd.
  - destruct t as [a n p s|a n p e c kids]; simpl in Hd; [done|].
    apply String.eqb_eq in Hd as ->.
    exists [], p, e, c, kids, ts. split; [done|constructor].
  - destruct (List.find _ _).
    + destruct IH as (ts1 & p & e & c & kids & ts2 & -> & Hno).
      exists (t :: ts1), p, e, c, kids, ts2. split; [done|]. by constructor.
    + by constructor.
Qed.

Lemma descend_found name cp k l1 p e kids l2 :
  Forall (fun n => is_dir_node name n = false) l1 ->
  descend name cp k (l1 ++ Dir name p e kids :: l2)
  = l1 ++ Dir name p e (k kids) :: l2.
Proof.
  induction 1 as [|n l1 Hn _ IH]; simpl.
  - by rewrite String.eqb_refl.
  - destruct n as [|nm ? ? ?]; simpl in Hn; [by rewrite IH|].
    rewrite Hn. by rewrite IH.
Qed.

Lemma descend_missing name cp k l :
  Forall (fun n => is_dir_node name n = false) l ->
  descend name cp k l = l ++ [Dir name cp true (k [])].
Proof.
  induction 1 as [|n l Hn _ IH]; simpl; [done|].
  destruct n as [|nm ? ? ?]; simpl in Hn; [by rewrite IH|].
  rewrite Hn. by rewrite IH.
Qed.

(** *** The inner loop, on the store and on values *)

Lemma insertParts_last name sz cp cur h :
  insertParts [name] sz cp cur h
  = push cur (length h) (h ++ [OFile name (extend cp name) sz]).
Proof. reflexivity. Qed.

Lemma insertParts_more name name' rest sz cp cur h :
  insertParts (name :: name' :: rest) sz cp cur h
  = es ← elems h cur;
    match List.find (is_dir_named h name) es with
    | Some dir =>
        children ← children_of h dir;
        insertParts (name' :: rest) sz (extend cp name) children h
    | None =>
        let h1 := h ++ [OArr []] in
        let h2 := h1 ++ [ODir name (extend cp name) true (length h)] in
        h3 ← push cur (length h1) h2;
        insertParts (name' :: rest) sz (extend cp name) (length h) h3
    end.
Proof. reflexivity. Qed.

Lemma place_last name sz cp current :
  place [name] sz cp current = current ++ [File name (extend cp name) sz].
Proof. reflexivity. Qed.

Lemma place_more name name' rest sz cp current :
  place (name :: name' :: rest) sz cp current
  = descend name (extend cp name) (place (name' :: rest) sz (extend cp name)) current.
Proof. reflexivity. Qed.

Local Arguments insertParts : simpl never.
Local Arguments place : simpl never.

Lemma insertParts_spec parts : forall sz cp cur h ts,
  forest_at h cur ts -> separate cur ts ->
  exists h' ts',
    insertParts parts sz cp cur h = Some h' /\
    forest_at h' cur ts' /\ separate cur ts' /\
    length h <= length h' /\
    (forall a, a ∈ ts' ≫= locs -> a ∈ ts ≫= locs \/ length h <= a) /\
    (forall a, a < length h -> a ∉ cur :: (ts ≫= locs) -> h' !! a = h !! a) /\
    erase <$> ts' = place parts sz cp (erase <$> ts).
Proof.
  induction parts as [|name rest IH]; intros sz cp cur h ts [Hcur Hts] Hsep.
  { exists h, ts. repeat split; auto. }
  assert (Hcurlt : cur < length h) by (eapply lookup_lt_Some; eauto).
  assert (Hbound : forall a, a ∈ ts ≫= locs -> a < length h)
    by (intros; eapply forest_bound; eauto).
  destruct rest as [|name' rest'].
  - (* the last segment: the file itself *)
    clear IH. rewrite insertParts_last, place_last.
    set (cp' := extend cp name). unfold push, elems.
    rewrite lookup_app_l, Hcur by done. simpl.
    eexists _, (ts ++ [LFile (length h) name cp' sz]).
    split; [reflexivity|].
    assert (Hold : forall a, a < length h -> a <> cur ->
              (<[cur:=OArr ((addr_of <$> ts) ++ [length h])]> (h ++ [OFile name cp' sz])) !! a = h !! a).
    { intros a Ha Hne. rewrite list_lookup_insert_ne by done. by rewrite lookup_app_l. }
    repeat split.
    + rewrite list_lookup_insert_eq by (rewrite length_app; lia).
      by rewrite fmap_app.
    + apply Forall_app. split.
      * eapply forest_frame; [done|]. intros a Ha. apply Hold; [auto|].
        unfold separate in Hsep. apply NoDup_cons in Hsep as [Hsep _]. set_solver.
      * repeat constructor. rewrite list_lookup_insert_ne by lia.
        by rewrite list_lookup_middle.
    + unfold separate in *. rewrite bind_app. simpl.
      apply NoDup_cons in Hsep as [Hc Hnd].
      apply NoDup_cons. split.
      * set_unfold. intros [?|[?|[]]]; [auto|lia].
      * apply NoDup_app. split; [done|]. split; [|apply NoDup_singleton].
        intros a Ha. apply Hbound in Ha. set_unfold. lia.
    + rewrite length_insert, length_app. lia.
    + intros a. rewrite bind_app. set_unfold. intros [?|[?|[]]]; [auto|lia].
    + intros a Ha Hn. apply Hold; [done|]. set_solver.
    + rewrite fmap_app. done.
  - rewrite insertParts_more, place_more.
    set (cp' := extend cp name). unfold elems at 1. rewrite Hcur. simpl.
    pose proof (find_dir_spec h name ts Hts) as Hfind.
    destruct (find (is_dir_named h name) (addr_of <$> ts)) as [d|].
    + destruct Hfind as (ts1 & p & e & c & kids & ts2 & -> & Hno).
      apply Forall_app in Hts as [Hts1 Hts2].
      apply Forall_cons in Hts2 as [Hd Hts2].
      apply holds_dir_inv in Hd as (Hda & Hdc & Hkids).
      unfold children_of. rewrite Hda. simpl.
      unfold separate in Hsep.
      rewrite bind_app, bind_cons in Hsep, Hbound. simpl in Hsep, Hbound.
      rewrite NoDup_cons, NoDup_app, !NoDup_cons, NoDup_app in Hsep.
      destruct Hsep as (Hcur_out & Hnd1 & Hdisj1 & Hd_out & Hc_out & Hndk & Hdisjk & Hnd2).
      destruct (IH sz cp' c h kids)
        as (h' & kids' & Hrun & [Hc' Hkids'] & Hsep' & Hlen & Hnew & Hframe & Her).
      { split; done. }
      { unfold separate. apply NoDup_cons. split; [|done]. set_solver. }
      exists h', (ts1 ++ LDir d name p e c kids' :: ts2).
      split; [done|].
      assert (Hsame : forall a, a < length h -> a <> c -> a ∉ kids ≫= locs ->
                h' !! a = h !! a).
      { intros a Ha Hac Hak. apply Hframe; [done|]. set_solver. }
      repeat split.
      * rewrite Hsame; [|done|set_solver..].
        rewrite Hcur. by rewrite !fmap_app.
      * apply Forall_app. split; [|apply Forall_cons; split].
        -- eapply forest_frame; [done|]. intros a Ha. apply Hsame; [auto| |]; set_solver.
        -- constructor; [|done..]. rewrite Hsame; [done|eapply lookup_lt_Some; eauto|set_solver..].
        -- eapply forest_frame; [done|]. intros a Ha. apply Hsame; [auto| |]; set_solver.
      * unfold separate in *. apply NoDup_cons in Hsep' as [Hc_out' Hndk'].
        assert (Hk' : forall a, a ∈ kids' ≫= locs ->
                  a <> cur /\ a <> d /\
                  ~ a ∈ (ts1 ≫= locs) /\ ~ a ∈ (ts2 ≫= locs)).
        { intros a [Ha|Ha]%Hnew; [set_solver|].
          repeat split; try (intros ->); try (intros Hin);
            [pose proof Hcurlt|pose proof (Hbound d)|pose proof (Hbound a)|pose proof (Hbound a)];
            set_unfold; try lia; naive_solver lia. }
        rewrite bind_app, bind_cons. simpl.
        rewrite NoDup_cons, NoDup_app, !NoDup_cons, NoDup_app.
        set_unfold. naive_solver.
      * done.
      * intros a. rewrite !bind_app, !bind_cons. simpl.
        rewrite !elem_of_app, !elem_of_cons, !elem_of_app.
        intros [?|[?|[?|[Ha|?]]]]; [tauto..| |tauto].
        apply Hnew in Ha as [Ha|Ha]; tauto.
      * intros a Ha Hn. apply Hsame; [done|..]; rewrite bind_app, bind_cons in Hn; simpl in Hn; set_solver.
      * rewrite !fmap_app. simpl. rewrite descend_found.
        -- by rewrite Her.
        -- by apply Forall_fmap.
    + (* no such directory yet: create it, then go on below it *)
      set (c := length h).
      set (d := length (h ++ [OArr []])).
      set (h2 := (h ++ [OArr []]) ++ [ODir name cp' true c]).
      assert (Hd : d = S c) by (unfold d; rewrite length_app; simpl; lia).
      assert (Hlen2 : length h2 = S (S c))
        by (unfold h2; rewrite !length_app; simpl; lia).
      assert (Hold2 : forall a, a < c -> h2 !! a = h !! a).
      { intros a Ha. unfold h2. rewrite !lookup_app_l; [done|lia|].
        rewrite length_app. lia. }
      unfold push, elems. rewrite Hold2, Hcur by done. simpl.
      set (h3 := <[cur:=OArr ((addr_of <$> ts) ++ [d])]> h2).
      assert (Hlen3 : length h3 = S (S c))
        by (unfold h3; by rewrite length_insert).
      assert (Hc3 : h3 !! c = Some (OArr [])).
      { unfold h3. rewrite list_lookup_insert_ne by lia.
        unfold h2. rewrite lookup_app_l by (rewrite length_app; simpl; lia).
        by rewrite list_lookup_middle. }
      assert (Hd3 : h3 !! d = Some (ODir name cp' true c)).
      { unfold h3. rewrite list_lookup_insert_ne by lia.
        unfold h2. by rewrite list_lookup_middle. }
      assert (Hcur3 : h3 !! cur = Some (OArr ((addr_of <$> ts) ++ [d]))).
      { unfold h3. rewrite list_lookup_insert_eq; [done|lia]. }
      assert (Hold3 : forall a, a < c -> a <> cur -> h3 !! a = h !! a).
      { intros a Ha Hne. unfold h3. rewrite list_lookup_insert_ne by done. auto. }
      destruct (IH sz cp' c h3 [])
        as (h' & kids' & Hrun & [Hc' Hkids'] & Hsep' & Hlen & Hnew & Hframe & Her).
      { split; [done|constructor]. }
      { unfold separate. simpl. apply NoDup_singleton. }
      exists h', (ts ++ [LDir d name cp' true c kids']).
      split; [done|].
      assert (Hfresh : forall a, a ∈ kids' ≫= locs -> S (S c) <= a).
      { intros a [Ha|Ha]%Hnew; [set_solver|lia]. }
      assert (Hsame : forall a, a < S (S c) -> a <> c -> h' !! a = h3 !! a).
      { intros a Ha Hne. apply Hframe; [lia|]. set_solver. }
      unfold separate in *.
      apply NoDup_cons in Hsep as [Hcur_out Hnd].
      apply NoDup_cons in Hsep' as [Hc_out' Hndk'].
      repeat split.
      * rewrite Hsame, Hcur3 by lia. by rewrite fmap_app.
      * apply Forall_app. split.
        -- eapply forest_frame; [done|]. intros a Ha.
           pose proof (Hbound a Ha). rewrite Hsame by lia.
           apply Hold3; [done|]. set_solver.
        -- repeat constructor; [|done..]. by rewrite Hsame by lia.
      * rewrite bind_app, bind_cons. simpl.
        rewrite NoDup_cons, NoDup_app, !NoDup_cons, NoDup_app.
        repeat split; [|done| | | |done| |constructor].
        -- rewrite elem_of_app, !elem_of_cons.
           intros [?|[?|[?|Hk]]]; [done|lia|lia|].
           rewrite app_nil_r in Hk. apply Hfresh in Hk. lia.
        -- intros a Ha. pose proof (Hbound a Ha). rewrite !elem_of_cons, app_nil_r.
           intros [?|[?|Hk]]; [lia|lia|]. apply Hfresh in Hk. lia.
        -- rewrite elem_of_cons, app_nil_r.
           intros [?|Hk]; [lia|]. apply Hfresh in Hk. lia.
        -- by rewrite app_nil_r.
        -- intros a _. apply not_elem_of_nil.
      * lia.
      * intros a. rewrite bind_app, bind_cons. simpl.
        rewrite !elem_of_app, !elem_of_cons, elem_of_app.
        intros [?|[?|[?|[Hk|Hk]]]]; [tauto|lia|lia| |by apply elem_of_nil in Hk].
        apply Hfresh in Hk. lia.
      * intros a Ha Hn. rewrite Hsame by lia. apply Hold3; [done|]. set_solver.
      * rewrite fmap_app. simpl. rewrite descend_missing.
        -- rewrite Her. done.
        -- by apply Forall_fmap.
Qed.

Lemma insertFiles_spec files : forall root h ts,
  forest_at h root ts -> separate root ts ->
  exists h' ts',
    insertFiles files root h = Some h' /\
    forest_at h' root ts' /\ separate root ts' /\
    erase <$> ts' = fold_left place_entry files (erase <$> ts).
Proof.
  induction files as [|f files IH]; intros root h ts Hat Hsep; simpl.
  { exists h, ts. done. }
  destruct (insertParts_spec (JsString.split "/" (path f)) (size f) "" root h ts)
    as (h1 & ts1 & -> & Hat1 & Hsep1 & _ & _ & _ & Her1); [done..|].
  simpl. destruct (IH root h1 ts1) as (h' & ts' & -> & Hat' & Hsep' & Her');
    [done..|].
  exists h', ts'. repeat split; try done; try apply Hat'.
  by rewrite Her', Her1.
Qed.

(** [buildTree] always returns, and the store it leaves holds, below
    [root], a tree without sharing whose value is [build files]. *)
Lemma buildTree_refines files :
  exists h root ts,
    buildTree files = Some (h, root) /\
    forest_at h root ts /\ separate root ts /\
    erase <$> ts = build files.
Proof.
  unfold buildTree, alloc. simpl.
  destruct (insertFiles_spec files 0 [OArr []] [])
    as (h & ts & -> & Hat & Hsep & Her).
  - split; [done|constructor].
  - unfold separate. simpl. apply NoDup_singleton.
  - exists h, 0, ts. done.
Qed.

(** *** Properties of the forest built *)

Lemma descend_cases name cp k current :
  (exists l1 p e kids l2,
      current = l1 ++ Dir name p e kids :: l2 /\ no_dir name l1 /\
      descend name cp k current = l1 ++ Dir name p e (k kids) :: l2) \/
  (no_dir name current /\
   descend name cp k current = current ++ [Dir name cp true (k [])]).
Proof.
  induction current as [|n ns IH]; simpl.
  { right. split; [constructor|done]. }
  assert (Hskip : is_dir_node name n = false ->
    (exists l1 p e kids l2,
      n :: ns = l1 ++ Dir name p e kids :: l2 /\ no_dir name l1 /\
      n :: descend name cp k ns = l1 ++ Dir name p e (k kids) :: l2) \/
    (no_dir name (n :: ns) /\
     n :: descend name cp k ns = (n :: ns) ++ [Dir name cp true (k [])])).
  { intros Hn. destruct IH as [(l1 & p & e & kids & l2 & -> & Hno & ->)|[Hno ->]].
    - left. exists (n :: l1), p, e, kids, l2. repeat split; [by constructor].
    - right. split; [by constructor|done]. }
  destruct n as [nm p s|nm p e kids]; [by apply Hskip|].
  destruct (String.eqb nm name) eqn:Hnm; [|by apply Hskip].
  apply String.eqb_eq in Hnm as ->.
  left. exists [], p, e, kids, ns. repeat split. constructor.
Qed.

Lemma no_dir_names name l : no_dir name l -> name ∉ dir_names l.
Proof.
  induction 1 as [|n l Hn _ IH]; simpl; [apply not_elem_of_nil|].
  destruct n as [|nm p e kids]; simpl in *; [done|].
  apply not_elem_of_cons. split; [|done].
  intros ->. by rewrite String.eqb_refl in Hn.
Qed.

Lemma dir_names_app l1 l2 : dir_names (l1 ++ l2) = dir_names l1 ++ dir_names l2.
Proof. apply omap_app. Qed.

Lemma entries_descend name cp k anc current e :
  (forall kids, k kids ≫= entries_of (anc ++ [name])
                ≡ₚ (kids ≫= entries_of (anc ++ [name])) ++ [e]) ->
  descend name cp k current ≫= entries_of anc
  ≡ₚ (current ≫= entries_of anc) ++ [e].
Proof.
  intros Hk.
  destruct (descend_cases name cp k current)
    as [(l1 & p & ex & kids & l2 & -> & _ & ->)|[_ ->]].
  - rewrite !bind_app, !bind_cons. simpl. rewrite Hk.
    rewrite <- !app_assoc. apply Permutation_app_head, Permutation_app_head.
    apply Permutation_app_comm.
  - rewrite bind_app, bind_cons. simpl. rewrite Hk. done.
Qed.

Lemma entries_place parts : forall sz cp anc current,
  parts <> [] ->
  place parts sz cp current ≫= entries_of anc
  ≡ₚ (current ≫= entries_of anc)
     ++ [{| path := JsString.join "/" (anc ++ parts); size := sz |}].
Proof.
  induction parts as [|name rest IH]; intros sz cp anc current Hne; [done|].
  destruct rest as [|name' rest'].
  - rewrite place_last, bind_app. simpl. done.
  - rewrite place_more. apply entries_descend. intros kids.
    rewrite IH by done. by rewrite <- app_assoc.
Qed.

Lemma entries_fold files : forall forest,
  fold_left place_entry files forest ≫= entries_of []
  ≡ₚ (forest ≫= entries_of []) ++ files.
Proof.
  induction files as [|f files IH]; intros forest; simpl.
  - by rewrite app_nil_r.
  - rewrite IH. unfold place_entry.
    rewrite entries_place by apply JsStringFacts.split_nonempty.
    simpl. rewrite JsStringFacts.join_split. destruct f. simpl.
    by rewrite <- app_assoc.
Qed.

Lemma entries_build files : build files ≫= entries_of [] ≡ₚ files.
Proof. unfold build. by rewrite entries_fold. Qed.

Lemma count_files_entries anc n : count_files n = length (entries_of anc n).
Proof.
  revert anc. induction n as [|nm p e kids IH] using node_ind'; intros anc; simpl; [done|].
  generalize (anc ++ [nm]). intros anc'.
  induction IH as [|k kids Hk _ IHk]; [done|].
  rewrite fmap_cons, bind_cons, length_app. simpl.
  f_equal; [apply Hk | apply IHk].
Qed.

Lemma count_forest_entries anc forest :
  sum_list (count_files <$> forest) = length (forest ≫= entries_of anc).
Proof.
  induction forest as [|n forest IH]; [done|].
  rewrite fmap_cons, bind_cons, length_app. simpl.
  f_equal; [apply count_files_entries | apply IH].
Qed.

(** No level of the forest built has two directories of one name, and
    every directory is expanded. *)
Lemma descend_level_ok name cp k current :
  (forall kids, level_ok kids -> level_ok (k kids)) ->
  level_ok current -> level_ok (descend name cp k current).
Proof.
  intros Hk [Hnd Hsyn].
  destruct (descend_cases name cp k current)
    as [(l1 & p & e & kids & l2 & -> & _ & ->)|[Hno ->]].
  - rewrite dir_names_app in *. simpl in *.
    apply Forall_app in Hsyn as [Hs1 Hs2]. apply Forall_cons in Hs2 as [Hd Hs2].
    split; [by rewrite dir_names_app|].
    apply Forall_app. split; [done|]. apply Forall_cons. split; [|done].
    inversion Hd; subst. destruct (Hk kids) as [? ?]; [by split|]. by constructor.
  - split.
    + rewrite dir_names_app. simpl. apply NoDup_app. split; [done|].
      split; [|apply NoDup_singleton].
      intros x Hx ->%list_elem_of_singleton. by apply no_dir_names in Hno.
    + apply Forall_app. split; [done|]. repeat constructor; apply Hk; split; constructor.
Qed.

Lemma place_level_ok parts : forall sz cp current,
  level_ok current -> level_ok (place parts sz cp current).
Proof.
  induction parts as [|name rest IH]; intros sz cp current Hok; [done|].
  destruct rest as [|name' rest'].
  - rewrite place_last. destruct Hok as [Hnd Hsyn]. split.
    + rewrite dir_names_app. simpl. by rewrite app_nil_r.
    + apply Forall_app. split; [done|]. repeat constructor.
  - rewrite place_more. apply descend_level_ok; [|done]. intros kids. apply IH.
Qed.

Lemma build_level_ok files : level_ok (build files).
Proof.
  unfold build. assert (Hnil : level_ok []) by (split; constructor).
  revert Hnil. generalize (@nil node).
  induction files as [|f files IH]; intros forest Hok; simpl; [done|].
  apply IH. by apply place_level_ok.
Qed.

(** *** [toggleNode] and [toggleDir] *)

Lemma holds_ext h ext t : holds h t -> holds (h ++ ext) t.
Proof.
  intros Hh. eapply holds_frame; [done|]. intros a Ha.
  apply lookup_app_l. eapply holds_bound; eauto.
Qed.

Lemma toggled_mono pth m n t t' : m <= n -> toggled pth n t t' -> toggled pth m t t'.
Proof.
  intros Hmn. revert t'.
  induction t as [a nm p s|a nm p e c kids IH] using lnode_ind'; intros t' Ht;
    inversion Ht; subst.
  - constructor.
  - constructor. lia.
  - constructor; [done|lia|lia|].
    match goal with H : Forall2 _ kids _ |- _ => revert H end.
    generalize kids'. clear -IH Hmn.
    induction IH as [|k kids Hk _ IHk]; intros ks' H; inversion H; subst; constructor; auto.
Qed.

Lemma toggled_erase pth n t t' : toggled pth n t t' -> erase t' = toggle pth (erase t).
Proof.
  revert t'.
  induction t as [a nm p s|a nm p e c kids IH] using lnode_ind'; intros t' Ht;
    inversion Ht; subst; simpl.
  - done.
  - by rewrite String.eqb_refl.
  - destruct (String.eqb_spec p pth) as [->|_]; [done|]. f_equal.
    match goal with H : Forall2 _ kids _ |- _ => revert H end.
    generalize kids'. clear -IH.
    induction IH as [|k kids Hk _ IHk]; intros ks' H; inversion H; subst; simpl; [done|].
    f_equal; auto.
Qed.

Lemma toggled_forest_erase pth n ts ts' :
  Forall2 (toggled pth n) ts ts' ->
  erase <$> ts' = toggle_forest pth (erase <$> ts).
Proof.
  unfold toggle_forest. induction 1 as [|t t' ts ts' Ht _ IH]; simpl; [done|].
  f_equal; [by eapply toggled_erase | done].
Qed.

Lemma toggle_involutive pth n : toggle pth (toggle pth n) = n.
Proof.
  induction n as [nm p s|nm p e kids IH] using node_ind'; simpl; [done|].
  destruct (String.eqb p pth) eqn:Hp; simpl; rewrite Hp.
  - by rewrite negb_involutive.
  - f_equal. induction IH as [|k kids Hk _ IHk]; simpl; [done|]. by f_equal.
Qed.

Lemma toggle_forest_involutive pth forest :
  toggle_forest pth (toggle_forest pth forest) = forest.
Proof.
  unfold toggle_forest. induction forest as [|n forest IH]; simpl; [done|].
  f_equal; [apply toggle_involutive | done].
Qed.

Lemma height_toggle pth n : height (toggle pth n) = height n.
Proof.
  induction n as [nm p s|nm p e kids IH] using node_ind'; simpl; [done|].
  destruct (String.eqb p pth); simpl; [done|]. f_equal. f_equal.
  induction IH as [|k kids Hk _ IHk]; simpl; [done|]. by f_equal.
Qed.

(** [arr.map(toggleNode)] on the children, given what [toggleNode] does
    on each of them with the fuel at hand. *)
Lemma map_alloc_toggle fuel pth :
  (forall t h, holds h t -> height (erase t) <= fuel ->
     exists ext t',
       toggleNode fuel pth (addr_of t) h = Some (h ++ ext, addr_of t') /\
       holds (h ++ ext) t' /\ toggled pth (length h) t t') ->
  forall kids h,
    Forall (holds h) kids ->
    Forall (fun k => height (erase k) <= fuel) kids ->
    exists ext kids',
      map_alloc (toggleNode fuel pth) (addr_of <$> kids) h
      = Some (h ++ ext, addr_of <$> kids') /\
      Forall (holds (h ++ ext)) kids' /\
      Forall2 (toggled pth (length h)) kids kids'.
Proof.
  intros Hnode. induction kids as [|k kids IH]; intros h Hh Hfuel.
  { exists [], []. rewrite app_nil_r. repeat split; constructor. }
  rewrite fmap_cons. cbn [map_alloc].
  apply Forall_cons in Hh as [Hk Hkids]. apply Forall_cons in Hfuel as [Hfk Hfkids].
  destruct (Hnode k h Hk Hfk) as (ext1 & k' & -> & Hk' & Htk). simpl.
  destruct (IH (h ++ ext1)) as (ext2 & kids' & -> & Hkids' & Htkids); [|done|].
  { eapply Forall_impl; [exact Hkids|]. intros. by apply holds_ext. }
  simpl. exists (ext1 ++ ext2), (k' :: kids'). rewrite app_assoc.
  repeat split.
  - constructor; [by apply holds_ext|done].
  - constructor; [done|].
    eapply Forall2_impl; [done|]. intros ? ?. apply toggled_mono.
    rewrite length_app. lia.
Qed.

Lemma max_list_le_all (f : lnode -> nat) kids n :
  max_list (f <$> kids) <= n -> Forall (fun k => f k <= n) kids.
Proof.
  induction kids as [|k kids IH]; [constructor|].
  rewrite fmap_cons.
  change (max_list (f k :: (f <$> kids))) with (f k `max` max_list (f <$> kids)).
  intros H. constructor; [lia|apply IH; lia].
Qed.

(** With fuel for its height, [toggleNode] returns; it only extends the
    store. *)
Lemma toggleNode_total pth fuel : forall t h,
  holds h t -> height (erase t) <= fuel ->
  exists ext t',
    toggleNode fuel pth (addr_of t) h = Some (h ++ ext, addr_of t') /\
    holds (h ++ ext) t' /\ toggled pth (length h) t t'.
Proof.
  induction fuel as [|fuel IH]; intros t h Hh Hfuel.
  { destruct t; simpl in Hfuel; lia. }
  destruct t as [a nm p s|a nm p e c kids]; simpl in Hfuel |- *.
  - apply holds_file_inv in Hh as Ha. rewrite Ha. simpl.
    exists [], (LFile a nm p s). rewrite app_nil_r. repeat split; [done|constructor].
  - apply holds_dir_inv in Hh as (Ha & Hc & Hkids). rewrite Ha. simpl.
    destruct (String.eqb_spec p pth) as [->|Hne].
    + unfold alloc. eexists [_], (LDir (length h) nm pth (negb e) c kids).
      split; [done|]. split; [|by constructor].
      constructor; [by apply list_lookup_middle|by apply lookup_app_l_Some|].
      eapply Forall_impl; [exact Hkids|]. intros. by apply holds_ext.
    + unfold elems. rewrite Hc. simpl.
      destruct (map_alloc_toggle fuel pth IH kids h Hkids)
        as (ext & kids' & -> & Hkids' & Htk).
      { rewrite <- list_fmap_compose in Hfuel. apply max_list_le_all.
        change (fun k => height (erase k)) with (height ∘ erase). lia. }
      simpl. unfold alloc.
      set (c' := length (h ++ ext)). set (h1 := (h ++ ext) ++ [OArr (addr_of <$> kids')]).
      exists (ext ++ [OArr (addr_of <$> kids'); ODir nm p e c']),
             (LDir (length h1) nm p e c' kids').
      assert (Heq : h ++ ext ++ [OArr (addr_of <$> kids'); ODir nm p e c']
                    = h1 ++ [ODir nm p e c']).
      { unfold h1. by rewrite <- !app_assoc. }
      rewrite Heq. split; [done|]. split.
      * constructor.
        -- by apply list_lookup_middle.
        -- apply lookup_app_l_Some. unfold h1. by apply list_lookup_middle.
        -- eapply Forall_impl; [exact Hkids'|]. intros. unfold h1. by do 2 apply holds_ext.
      * constructor; [done|..|done].
        -- unfold h1. rewrite !length_app. lia.
        -- unfold c'. rewrite length_app. lia.
Qed.

Lemma forest_height_le forest fuel :
  forest_height forest <= fuel -> Forall (fun n => height n <= fuel) forest.
Proof.
  unfold forest_height. induction forest as [|n forest IH]; [constructor|].
  rewrite fmap_cons.
  change (max_list (height n :: (height <$> forest)))
    with (height n `max` max_list (height <$> forest)).
  intros H. constructor; [lia|apply IH; lia].
Qed.

Lemma toggleDir_spec pth fuel h prev ts :
  forest_at h prev ts -> forest_height (erase <$> ts) <= fuel ->
  exists ext ts',
    toggleDir fuel pth prev h = Some (h ++ ext, pred (length (h ++ ext))) /\
    ext <> [] /\
    forest_at (h ++ ext) (pred (length (h ++ ext))) ts' /\
    Forall2 (toggled pth (length h)) ts ts'.
Proof.
  intros [Hprev Hts] Hfuel. unfold toggleDir, elems. rewrite Hprev. simpl.
  destruct (map_alloc_toggle fuel pth (toggleNode_total pth fuel) ts h Hts)
    as (ext & ts' & -> & Hts' & Htog).
  { apply forest_height_le in Hfuel. by apply Forall_fmap in Hfuel. }
  simpl. unfold alloc.
  exists (ext ++ [OArr (addr_of <$> ts')]), ts'.
  rewrite !app_assoc. rewrite (length_app _ [_]). simpl.
  rewrite Nat.add_1_r. simpl. repeat split.
  - by destruct ext.
  - by apply list_lookup_middle.
  - eapply Forall_impl; [exact Hts'|]. intros. by apply holds_ext.
  - done.
Qed.

Lemma toggle_no_dir pth n : has_dir pth n = false -> toggle pth n = n.
Proof.
  induction n as [nm p s|nm p e kids IH] using node_ind'; simpl; [done|].
  intros [Hp Hk]%orb_false_elim. rewrite Hp. f_equal.
  induction IH as [|k kids Hk' _ IHk]; simpl in *; [done|].
  apply orb_false_elim in Hk as [Hk1 Hk2]. f_equal; auto.
Qed.

Lemma toggle_forest_no_dir pth forest :
  existsb (has_dir pth) forest = false -> toggle_forest pth forest = forest.
Proof.
  unfold toggle_forest. induction forest as [|n forest IH]; simpl; [done|].
  intros [H1 H2]%orb_false_elim. f_equal; [by apply toggle_no_dir|auto].
Qed.

Lemma forest_height_toggle pth forest :
  forest_height (toggle_forest pth forest) = forest_height forest.
Proof.
  unfold forest_height, toggle_forest. rewrite <- list_fmap_compose.
  f_equal. apply list_fmap_ext. intros _ n _. apply height_toggle.
Qed.

(** *** One directory per path prefix *)

Lemma names_place parts : forall sz cp current x,
  x ∈ place parts sz cp current ≫= node_names ->
  x ∈ current ≫= node_names \/ x ∈ parts.
Proof.
  induction parts as [|name rest IH]; intros sz cp current x; [by left|].
  destruct rest as [|name' rest'].
  - rewrite place_last, bind_app. simpl. set_solver.
  - rewrite place_more.
    destruct (descend_cases name (extend cp name)
                (place (name' :: rest') sz (extend cp name)) current)
      as [(l1 & p & e & kids & l2 & -> & _ & ->)|[_ ->]].
    + rewrite !bind_app, !bind_cons. simpl.
      rewrite !elem_of_app, !elem_of_cons, !elem_of_app.
      intros [?|[?|[Hk|?]]]; try tauto.
      apply IH in Hk. rewrite elem_of_cons in Hk. tauto.
    + rewrite bind_app, bind_cons. simpl.
      rewrite !elem_of_app, !elem_of_cons, !elem_of_app.
      intros [?|[?|[Hk|Hk]]]; try tauto.
      * apply IH in Hk. rewrite elem_of_cons in Hk.
        destruct Hk as [Hk|?]; [by apply elem_of_nil in Hk|tauto].
      * by apply elem_of_nil in Hk.
Qed.

Lemma names_build files :
  Forall (fun w => JsString.no_sep "/" w = true) (build files ≫= node_names).
Proof.
  unfold build.
  assert (Hnil : Forall (fun w => JsString.no_sep "/" w = true) ([] ≫= node_names))
    by constructor.
  revert Hnil. generalize (@nil node).
  induction files as [|f files IH]; intros forest Hok; simpl; [done|].
  apply IH. apply Forall_forall. intros x Hx.
  apply names_place in Hx as [Hx|Hx].
  - rewrite Forall_forall in Hok. auto.
  - pose proof (JsStringFacts.split_no_sep "/" (path f)) as Hs.
    rewrite Forall_forall in Hs. auto.
Qed.

(** A chain below [n] goes through [n], a directory, and then only
    through names of the tree. *)
Lemma chain_shape anc n c :
  c ∈ dir_chains anc n ->
  exists nm p e kids rest,
    n = Dir nm p e kids /\ c = anc ++ nm :: rest /\
    (forall x, x ∈ nm :: rest -> x ∈ node_names n).
Proof.
  revert anc c.
  induction n as [nm p s|nm p e kids IH] using node_ind'; intros anc c; simpl.
  { by intros ?%elem_of_nil. }
  intros Hc. exists nm, p, e, kids.
  apply elem_of_cons in Hc as [->|Hc].
  { exists []. split; [done|]. split; [done|]. set_solver. }
  apply list_elem_of_bind in Hc as (k & Hc & Hk).
  rewrite Forall_forall in IH.
  destruct (IH k Hk _ _ Hc) as (nm' & p' & e' & kids' & rest & -> & -> & Hnames).
  exists (nm' :: rest). rewrite <- app_assoc. split; [done|]. split; [done|].
  intros y [->|Hy]%elem_of_cons; [set_solver|].
  apply elem_of_cons. right. apply list_elem_of_bind. eauto.
Qed.

Lemma chains_disjoint anc n forest c :
  NoDup (dir_names (n :: forest)) ->
  c ∈ dir_chains anc n -> c ∉ forest ≫= dir_chains anc.
Proof.
  intros Hnd Hc (n2 & Hc2 & Hn2)%list_elem_of_bind.
  apply chain_shape in Hc as (nm & p & e & kids & rest & -> & -> & _).
  apply chain_shape in Hc2 as (nm2 & p2 & e2 & kids2 & rest2 & -> & Heq & _).
  apply app_inv_head in Heq. injection Heq as -> _.
  simpl in Hnd. apply NoDup_cons in Hnd as [Hnot _]. apply Hnot.
  unfold dir_names. apply list_elem_of_omap. eexists; split; [exact Hn2|done].
Qed.

Lemma forest_chains_NoDup anc forest :
  NoDup (dir_names forest) ->
  Forall (fun n => forall anc, NoDup (dir_chains anc n)) forest ->
  NoDup (forest ≫= dir_chains anc).
Proof.
  induction forest as [|n forest IH]; intros Hnd Hall; [constructor|].
  apply Forall_cons in Hall as [Hn Hall].
  rewrite bind_cons. apply NoDup_app. repeat split.
  - apply Hn.
  - intros c Hc. by eapply chains_disjoint.
  - apply IH; [|done].
    destruct n; simpl in Hnd; [done|]. by apply NoDup_cons in Hnd as [_ ?].
Qed.

Lemma node_chains_NoDup n :
  synthesized n -> forall anc, NoDup (dir_chains anc n).
Proof.
  induction n as [nm p s|nm p e kids IH] using node_ind'; intros Hn anc; simpl;
    [constructor|].
  inversion Hn as [|? ? ? Hndk Hk]; subst.
  apply NoDup_cons. split.
  - intros (k & Hc & Hk')%list_elem_of_bind.
    apply chain_shape in Hc as (nm' & ? & ? & ? & rest & _ & Heq & _).
    rewrite <- app_assoc in Heq. apply app_inv_head in Heq. discriminate.
  - apply forest_chains_NoDup; [done|].
    rewrite Forall_forall in *. auto.
Qed.

Lemma join_chains_inj forest c1 c2 :
  Forall (fun w => JsString.no_sep "/" w = true) (forest ≫= node_names) ->
  c1 ∈ forest ≫= dir_chains [] -> c2 ∈ forest ≫= dir_chains [] ->
  JsString.join "/" c1 = JsString.join "/" c2 -> c1 = c2.
Proof.
  intros Hnames Hc1 Hc2.
  assert (Hok : forall c, c ∈ forest ≫= dir_chains [] ->
            c <> [] /\ Forall (fun w => JsString.no_sep "/" w = true) c).
  { intros c (n & Hc & Hn)%list_elem_of_bind.
    apply chain_shape in Hc as (nm & p & e & kids & rest & -> & -> & Hin).
    split; [done|]. simpl. apply Forall_forall. intros x Hx.
    rewrite Forall_forall in Hnames. apply Hnames.
    apply list_elem_of_bind. exists (Dir nm p e kids). split; [auto|done]. }
  destruct (Hok c1 Hc1), (Hok c2 Hc2). by apply JsStringFacts.join_inj.
Qed.

Lemma build_prefixes_NoDup files : NoDup (dir_prefixes (build files)).
Proof.
  unfold dir_prefixes. destruct (build_level_ok files) as [Hnd Hsyn].
  apply NoDup_fmap_2_strong.
  - intros c1 c2. apply join_chains_inj, names_build.
  - apply forest_chains_NoDup; [done|].
    rewrite Forall_forall in *. intros n Hn. by apply node_chains_NoDup, Hsyn.
Qed.

(** *** The forest a store holds is unique *)

Lemma holds_inj h t1 : forall t2,
  holds h t1 -> holds h t2 -> addr_of t1 = addr_of t2 -> t1 = t2.
Proof.
  induction t1 as [a n p s|a n p e c kids IH] using lnode_ind'; intros t2 H1 H2 Ha.
  - apply holds_file_inv in H1. destruct t2 as [a2 n2 p2 s2|a2 n2 p2 e2 c2 kids2];
      simpl in Ha; subst a2.
    + apply holds_file_inv in H2. congruence.
    + apply holds_dir_inv in H2 as (H2 & _). congruence.
  - apply holds_dir_inv in H1 as (H1a & H1c & H1k).
    destruct t2 as [a2 n2 p2 s2|a2 n2 p2 e2 c2 kids2]; simpl in Ha; subst a2.
    + apply holds_file_inv in H2. congruence.
    + apply holds_dir_inv in H2 as (H2a & H2c & H2k).
      rewrite H1a in H2a. injection H2a as <- <- <- <-.
      rewrite H1c in H2c. injection H2c as Hkids. f_equal.
      clear H1a H1c. revert kids2 Hkids H2k.
      induction IH as [|k kids IHk _ IHkids]; intros [|k2 kids2] Hkids H2k;
        try done.
      apply Forall_cons in H1k as [? ?]. apply Forall_cons in H2k as [? ?].
      injection Hkids as ? ?. f_equal; auto.
Qed.

Lemma forest_at_inj h r ts1 ts2 :
  forest_at h r ts1 -> forest_at h r ts2 -> ts1 = ts2.
Proof.
  intros [Hr1 H1] [Hr2 H2]. rewrite Hr1 in Hr2. injection Hr2 as Heq.
  clear Hr1. revert ts2 Heq H2.
  induction H1 as [|t ts Ht _ IH]; intros [|t2 ts2] Heq H2; simpl in Heq; try done.
  apply Forall_cons in H2 as [? ?]. injection Heq as ? ?.
  f_equal; [by eapply holds_inj|auto].
Qed.

(** [buildTree] returns one forest, and it is [build files]. *)
Lemma builds_unique files f1 f2 : builds files f1 -> builds files f2 -> f1 = f2.
Proof.
  intros (h1 & r1 & ts1 & Hb1 & Hat1 & _ & <-) (h2 & r2 & ts2 & Hb2 & Hat2 & _ & <-).
  rewrite Hb1 in Hb2. injection Hb2 as <- <-.
  by rewrite (forest_at_inj _ _ _ _ Hat1 Hat2).
Qed.

Lemma builds_build files : builds files (build files).
Proof.
  destruct (buildTree_refines files) as (h & r & ts & ? & ? & ? & ?).
  by exists h, r, ts.
Qed.

Lemma two_dirs_built : buildTree two_dirs = Some (two_dirs_heap, 0).
Proof. reflexivity. Qed.

Lemma two_dirs_held : forest_at two_dirs_heap 0 two_dirs_forest.
Proof. split; [reflexivity|]. repeat constructor. Qed.

(** *** Properties of the specification: the tree *)

(** C1.  For every finite sequence of entries, the empty one included,
    [buildTree] returns a forest with exactly as many file nodes, at all
    depths, as there are entries; and reading each file node back as
    the ['/']-join of the names of its ancestor directories and its own
    name, with its size, gives the entries again, each exactly once. *)
Theorem buildTree_file_nodes (files : list FlatFileEntry) :
  exists forest,
    builds files forest /\
    sum_list (count_files <$> forest) = length files /\
    forest ≫= entries_of [] ≡ₚ files.
Proof.
  exists (build files). split; [apply builds_build|].
  pose proof (entries_build files) as Hperm. split; [|done].
  rewrite (count_forest_entries []). by rewrite Hperm.
Qed.

(** C2.  In the forest [buildTree] returns, no level has two directory
    nodes of one name, no two directory nodes stand for the same path
    prefix, and every directory node has [expanded = true]; building
    from [a/b.js] (10) and [a/c.js] (20) gives the single directory [a],
    expanded, with the file children [b.js] (10) and [c.js] (20). *)
Theorem buildTree_directories :
  (forall files, exists forest,
      builds files forest /\ level_ok forest /\ NoDup (dir_prefixes forest)) /\
  builds two_files
    [ Dir "a" "a" true [ File "b.js" "a/b.js" 10%Z; File "c.js" "a/c.js" 20%Z ] ].
Proof.
  split.
  - intros files. exists (build files).
    split; [apply builds_build|]. split; [apply build_level_ok|].
    apply build_prefixes_NoDup.
  - apply (builds_build two_files).
Qed.

(** C3.  For every forest a store holds and every target path, with
    fuel for the height of the forest, [toggleDir] returns, applied to
    its own result it returns again, and the forest then held has the
    value of the original one: toggling twice is the identity up to
    deep equality. *)
Theorem toggleDir_twice (pth : string) (fuel : nat) h (prev : nat) (ts : list lnode) :
  forest_at h prev ts ->
  (forest_height (erase <$> ts) <= fuel) ->
  exists h1 next1 h2 next2 ts2,
    toggleDir fuel pth prev h = Some (h1, next1) /\
    toggleDir fuel pth next1 h1 = Some (h2, next2) /\
    forest_at h2 next2 ts2 /\
    erase <$> ts2 = erase <$> ts.
Proof.
  intros Hat Hfuel.
  destruct (toggleDir_spec pth fuel h prev ts Hat Hfuel)
    as (ext1 & ts1 & Hrun1 & _ & Hat1 & Htog1).
  apply toggled_forest_erase in Htog1.
  destruct (toggleDir_spec pth fuel _ _ ts1 Hat1)
    as (ext2 & ts2 & Hrun2 & _ & Hat2 & Htog2).
  { by rewrite Htog1, forest_height_toggle. }
  apply toggled_forest_erase in Htog2.
  eexists _, _, _, _, ts2. repeat split; [exact Hrun1|exact Hrun2|apply Hat2..|].
  by rewrite Htog2, Htog1, toggle_forest_involutive.
Qed.

Lemma toggleDir_twice_witness :
  exists h1 next1 h2 next2 ts2,
    toggleDir 2 "a" 0 two_dirs_heap = Some (h1, next1) /\
    toggleDir 2 "a" next1 h1 = Some (h2, next2) /\
    forest_at h2 next2 ts2 /\
    erase <$> ts2 = erase <$> two_dirs_forest.
Proof.
  apply (toggleDir_twice "a" 2 two_dirs_heap 0 two_dirs_forest).
  - exact two_dirs_held.
  - vm_compute. lia.
Defined.

(** C4, as stated, fails: toggling [a] in the forest of [a/x.js] and
    [b/y.js] also replaces the directory [b], which is neither the
    target nor one of its ancestors, by a new object with a new
    [children] array. *)
Lemma toggleDir_copies_sibling :
  exists h' next b b' c',
    buildTree two_dirs = Some (two_dirs_heap, 0) /\
    toggleDir 2 "a" 0 two_dirs_heap = Some (h', next) /\
    elems two_dirs_heap 0 = Some [2; b] /\
    two_dirs_heap !! b = Some (ODir "b" "b" true 4) /\
    existsb (has_dir "a") [Dir "b" "b" true [File "y.js" "b/y.js" 2%Z]] = false /\
    elems h' next = Some [7; b'] /\
    h' !! b' = Some (ODir "b" "b" true c') /\
    b' <> b /\ c' <> 4.
Proof. eexists _, _, 5, 9, 8. repeat split; discriminate. Qed.

(** C4, amended.  For every forest a store holds and every target path,
    [toggleDir] only adds objects to the store (no existing object is
    changed) and returns a new array; every file node of the result is
    the object it was; a directory whose path is the target is replaced
    by a new object with [expanded] flipped that keeps its [children]
    array, so that everything below it is the object it was; every
    other directory that is not below a target, on the way to one or
    not, is replaced by a new object with a new [children] array; the
    value of the result is the input with the targets flipped, and it is
    the value of the input when no directory has the target path. *)
Theorem toggleDir_frame (pth : string) (fuel : nat) h (prev : nat) (ts : list lnode) :
  forest_at h prev ts ->
  (forest_height (erase <$> ts) <= fuel) ->
  exists ext next ts',
    toggleDir fuel pth prev h = Some (h ++ ext, next) /\
    (length h <= next) /\
    forest_at (h ++ ext) next ts' /\
    Forall2 (toggled pth (length h)) ts ts' /\
    erase <$> ts' = toggle_forest pth (erase <$> ts) /\
    (existsb (has_dir pth) (erase <$> ts) = false ->
     erase <$> ts' = erase <$> ts).
Proof.
  intros Hat Hfuel.
  destruct (toggleDir_spec pth fuel h prev ts Hat Hfuel)
    as (ext & ts' & Hrun & Hne & Hat' & Htog).
  exists ext, (pred (length (h ++ ext))), ts'.
  pose proof (toggled_forest_erase _ _ _ _ Htog) as Her.
  repeat split; try done; try apply Hat'.
  - rewrite length_app. destruct ext; [done|]. simpl. lia.
  - intros Hno. by rewrite Her, toggle_forest_no_dir.
Qed.

Lemma toggleDir_frame_witness :
  exists ext next ts',
    toggleDir 2 "a" 0 two_dirs_heap = Some (two_dirs_heap ++ ext, next) /\
    (length two_dirs_heap <= next) /\
    forest_at (two_dirs_heap ++ ext) next ts' /\
    Forall2 (toggled "a" (length two_dirs_heap)) two_dirs_forest ts' /\
    erase <$> ts' = toggle_forest "a" (erase <$> two_dirs_forest) /\
    (existsb (has_dir "a") (erase <$> two_dirs_forest) = false ->
     erase <$> ts' = erase <$> two_dirs_forest).
Proof.
  apply (toggleDir_frame "a" 2 two_dirs_heap 0 two_dirs_forest).
  - exact two_dirs_held.
  - vm_compute. lia.
Defined.

End FileTreeFacts.

(** ** The gateway: properties *)

Module BackendFacts.
Import Backend.

(** *** Running a program *)

Lemma run_await_try {A} net i r (k : jsval -> prog A) handler :
  run net i (try_catch (await r ≫= k) handler)
  = let '(x, issued) :=
      run net (S i) (match net i r with
                     | Resolved res => try_catch (k res) handler
                     | Rejected err => handler err
                     end) in
    (x, r :: issued).
Proof. simpl. by destruct (net i r). Qed.

Lemma run_bind {A B} net i (p : prog A) (f : A -> prog B) :
  run net i (p ≫= f)
  = match run net i p with
    | (Returned a, issued) =>
        let '(r, issued') := run net (i + length issued) (f a) in
        (r, issued ++ issued')
    | (Thrown e, issued) => (Thrown e, issued)
    end.
Proof.
  revert i. induction p as [a|e|r k IH]; intros i; simpl.
  - rewrite Nat.add_0_r. by destruct (run net i (f a)).
  - done.
  - change (bind (k (net i r)) f) with (k (net i r) ≫= f). rewrite IH.
    destruct (run net (S i) (k (net i r))) as [[a|e] issued]; [|done].
    simpl. rewrite Nat.add_succ_r. by destruct (run net _ (f a)).
Qed.

(** *** Validation *)

Lemma missing_falsy v : missing v -> truthy v = false.
Proof. by intros [-> | [-> | ->]]. Qed.

Lemma no_elements_no_items v : no_elements v -> no_items v = true.
Proof. by intros [-> | [-> | ->]]. Qed.

Lemma throw_rejected_locally {A} msg :
  msg ∈ validation_messages -> rejected_locally (A := A) (Throw (Error msg)).
Proof. intros Hmsg. exists msg. split; [done|]. reflexivity. Qed.

Ltac validation :=
  repeat match goal with
  | H : missing _ |- _ => apply missing_falsy in H
  | H : no_elements _ |- _ => apply no_elements_no_items in H
  end;
  repeat match goal with
  | H : truthy ?v = false |- context [truthy ?v] => rewrite H
  | H : no_items ?v = true |- context [no_items ?v] => rewrite H
  | |- context [truthy ?v] => destruct (truthy v)
  | |- context [no_items ?v] => destruct (no_items v)
  end;
  simpl; try (apply throw_rejected_locally; set_solver).

(** C6.  Each gateway function with required arguments
    ([fetchRepoFiles], [fetchFileContents], [summarizeTestsWithContent],
    [summarizeTests], [generateCode], [generateTest]) fails at once with
    one of the validation messages, and issues no request, whenever a
    required argument is missing ([undefined], [null]) or empty (['']
    for a scalar, [[]] for the paths and the contents); so does
    [fetchRepoFiles("", "repo")], with "Owner and repository name are
    required". *)
Theorem validation_before_network (env : option string) :
  (forall owner repo, missing owner \/ missing repo ->
     rejected_locally (fetchRepoFiles env owner repo)) /\
  (forall owner repo paths, missing owner \/ missing repo \/ no_elements paths ->
     rejected_locally (fetchFileContents env owner repo paths)) /\
  (forall fileContents framework, no_elements fileContents ->
     rejected_locally (summarizeTestsWithContent env fileContents framework)) /\
  (forall owner repo paths framework,
     missing owner \/ missing repo \/ no_elements paths ->
     rejected_locally (summarizeTests env owner repo paths framework)) /\
  (forall fileContent summary framework, missing fileContent \/ missing summary ->
     rejected_locally (generateCode env fileContent summary framework)) /\
  (forall fileName fileContent scenario,
     missing fileName \/ missing fileContent \/ missing scenario ->
     rejected_locally (generateTest env fileName fileContent scenario)) /\
  (forall net i,
     run net i (fetchRepoFiles env (JStr "") (JStr "repo"))
     = (Thrown (Error "Owner and repository name are required"), [])).
Proof.
  repeat split.
  - intros owner repo [H|H]; unfold fetchRepoFiles; validation.
  - intros owner repo paths [H|[H|H]]; unfold fetchFileContents; validation.
  - intros fileContents framework H; unfold summarizeTestsWithContent; validation.
  - intros owner repo paths framework [H|[H|H]]; unfold summarizeTests; validation.
  - intros fileContent summary framework [H|H]; unfold generateCode; validation.
  - intros fileName fileContent scenario [H|[H|H]]; unfold generateTest; validation.
Qed.

Lemma validation_before_network_witness :
  (missing (JStr "") \/ missing (JStr "repo")) /\
  rejected_locally (fetchRepoFiles None (JStr "") (JStr "repo")).
Proof.
  assert (H : missing (JStr "") \/ missing (JStr "repo"))
    by (left; right; right; reflexivity).
  split; [exact H|].
  exact (proj1 (validation_before_network None) (JStr "") (JStr "repo") H).
Defined.

(** *** Failure normalization *)

Lemma truthy_trim s :
  JsString.truthy s && JsString.truthy (JsString.trim s)
  = JsString.truthy (JsString.trim s).
Proof. by destruct s. Qed.

(** With a response, the message is the one the body carries, else the
    status line. *)
Lemma normalize_response err :
  truthy (get err "response") = true ->
  normalizeAxiosError err
  = Error (match body_message (get (get err "response") "data") with
           | Some m => m
           | None => status_line (get err "response")
           end).
Proof.
  intros Hr. unfold normalizeAxiosError. rewrite Hr.
  fold (status_line (get err "response")).
  destruct (get (get err "response") "data") as [| |b|n|s|items|prop] eqn:Hd;
    simpl; rewrite ?andb_false_r; try done.
  - rewrite truthy_trim. by destruct (JsString.truthy _).
  - destruct (or_else _ _); try done.
    rewrite truthy_trim. by destruct (JsString.truthy _).
Qed.

(** C7, as stated, fails in (c): a thrown string has no [response], no
    [request] and no [message], yet it is normalized to its own text,
    not to "Unknown error occurred". *)
Lemma normalize_thrown_string :
  get (JStr "boom") "response" = JUndefined /\
  get (JStr "boom") "request" = JUndefined /\
  get (JStr "boom") "message" = JUndefined /\
  get (normalizeAxiosError (JStr "boom")) "message" = JStr "boom" /\
  normalizeAxiosError (JStr "boom") <> Error "Unknown error occurred".
Proof.
  repeat split. intros H.
  apply (f_equal (fun e => get e "message")) in H. discriminate H.
Qed.

(** C7, amended.  (a) An error with a response yields the message its
    body carries (the first truthy of [detail], [message], [error],
    [msg] of an object body, or a string body itself, trimmed, when it
    is a string with something left after trimming), else
    ["{status} {statusText}"]; so a 404 with body
    [{"detail": "Repository not found"}] yields exactly "Repository not
    found".  (b) An error without response but with a request yields
    "Network error: backend unreachable".  (c) Any other thrown value
    yields its [message] when that is truthy, else its own string
    conversion when it is a truthy non-object, else "Unknown error
    occurred". *)
Theorem normalizeAxiosError_shapes (err : jsval) :
  (truthy (get err "response") = true ->
     normalizeAxiosError err
     = Error (match body_message (get (get err "response") "data") with
              | Some m => m
              | None => status_line (get err "response")
              end)) /\
  (truthy (get err "response") = false -> truthy (get err "request") = true ->
     normalizeAxiosError err = Error "Network error: backend unreachable") /\
  (truthy (get err "response") = false -> truthy (get err "request") = false ->
     normalizeAxiosError err
     = Error (if truthy (get err "message") then to_string (get err "message")
              else if truthy err && negb (is_object err) then to_string err
              else "Unknown error occurred")) /\
  normalizeAxiosError
    (http_error 404 "Not Found" (obj [("detail", JStr "Repository not found")]))
  = Error "Repository not found".
Proof.
  split; [apply normalize_response|]. split; [|split; [|reflexivity]].
  - intros Hr Hq. unfold normalizeAxiosError. by rewrite Hr, Hq.
  - intros Hr Hq. unfold normalizeAxiosError. rewrite Hr, Hq.
    destruct (truthy (get err "message")); [done|].
    destruct (truthy err); [|done]. by destruct (is_object err).
Qed.

Lemma normalizeAxiosError_shapes_witness :
  truthy (get (http_error 500 "Internal Server Error" (JStr " down ")) "response") = true /\
  normalizeAxiosError (http_error 500 "Internal Server Error" (JStr " down "))
  = Error "down".
Proof.
  split; [reflexivity|].
  exact (proj1 (normalizeAxiosError_shapes
                  (http_error 500 "Internal Server Error" (JStr " down ")))
               eq_refl).
Defined.

(** C10, as stated, fails: a body of white space only is a non-empty
    string, and the message is the status line. *)
Lemma normalize_blank_body :
  normalizeAxiosError (http_error 500 "Internal Server Error" (JStr "   "))
  = Error "500 Internal Server Error".
Proof. reflexivity. Qed.

(** C10, amended.  For every error with a response whose body is a
    string that is not empty once trimmed, the message is exactly that
    string trimmed, not the status line. *)
Theorem normalize_string_body (err : jsval) (s : string) :
  truthy (get err "response") = true ->
  get (get err "response") "data" = JStr s ->
  JsString.trim s <> "" ->
  normalizeAxiosError err = Error (JsString.trim s).
Proof.
  intros Hr Hd Hs. rewrite normalize_response by done. rewrite Hd. simpl.
  destruct (JsString.trim s); [done|]. done.
Qed.

Lemma normalize_string_body_witness :
  normalizeAxiosError (http_error 503 "Service Unavailable" (JStr "  try later  "))
  = Error "try later".
Proof.
  apply (normalize_string_body
           (http_error 503 "Service Unavailable" (JStr "  try later  "))
           "  try later  "); [reflexivity|reflexivity|discriminate].
Defined.

(** *** Successful responses *)

(** C8, as stated, fails: on a body without [files],
    [fetchFileContents] returns the body itself, here an object with a
    [message], not an empty collection. *)
Lemma fetchFileContents_returns_body :
  let body := obj [("message", JStr "ok")] in
  let net := fun (_ : nat) (_ : request) =>
               Resolved (obj [("status", JNum 200); ("data", body)]) in
  get body "files" = JUndefined /\
  fst (run net 0 (fetchFileContents None (JStr "o") (JStr "r") (JArr [JStr "a.py"])))
  = Returned body /\
  get body "message" = JStr "ok" /\ body <> JArr [].
Proof. repeat split. discriminate. Qed.

(** C8, amended.  On a successful response, [fetchRepoFiles] returns
    the flattening of the [files] field of the body, and the empty
    sequence when the body has no (truthy) [files]; [fetchFileContents]
    returns the [files] field when it is truthy, else the body itself
    when it is truthy, else an empty array.  Each issues exactly its one
    request. *)
Theorem success_payload (env : option string) (net : nat -> request -> outcome)
    (i : nat) (res : jsval) :
  (forall owner repo,
     truthy owner = true -> truthy repo = true ->
     net i (GET (files_url env owner repo) 8000) = Resolved res ->
     (forall nodes,
        flattenFiles (or_else (get (get res "data") "files") (JArr [])) = Returned nodes ->
        run net i (fetchRepoFiles env owner repo)
        = (Returned nodes, [GET (files_url env owner repo) 8000])) /\
     (truthy (get (get res "data") "files") = false ->
        run net i (fetchRepoFiles env owner repo)
        = (Returned [], [GET (files_url env owner repo) 8000]))) /\
  (forall owner repo paths,
     truthy owner = true -> truthy repo = true -> no_items paths = false ->
     net i (contents_request env owner repo paths) = Resolved res ->
     run net i (fetchFileContents env owner repo paths)
     = (Returned (if truthy (get (get res "data") "files")
                  then get (get res "data") "files"
                  else if truthy (get res "data") then get res "data"
                  else JArr []),
        [contents_request env owner repo paths])).
Proof.
  split.
  - intros owner repo Ho Hr Hnet.
    assert (Hrun : run net i (fetchRepoFiles env owner repo)
              = (match flattenFiles (or_else (get (get res "data") "files") (JArr [])) with
                 | Returned nodes => Returned nodes
                 | Thrown e => Thrown (normalizeAxiosError e)
                 end, [GET (files_url env owner repo) 8000])).
    { unfold fetchRepoFiles. rewrite Ho, Hr. cbn [negb orb].
      fold (files_url env owner repo). rewrite run_await_try, Hnet.
      by destruct (flattenFiles _). }
    split.
    + intros nodes Hflat. by rewrite Hrun, Hflat.
    + intros Hfalsy. rewrite Hrun. unfold or_else. by rewrite Hfalsy.
  - intros owner repo paths Ho Hr Hp Hnet.
    unfold fetchFileContents. rewrite Ho, Hr, Hp. cbn [negb orb].
    fold (contents_request env owner repo paths). rewrite run_await_try, Hnet.
    unfold or_else. cbn [try_catch run].
    destruct (truthy (get (get res "data") "files")) eqn:Hf; [by rewrite Hf|done].
Qed.

Lemma success_payload_witness :
  let res := obj [("status", JNum 200); ("data", obj [("total_count", JNum 0)])] in
  run (fun _ _ => Resolved res) 0 (fetchRepoFiles None (JStr "o") (JStr "r"))
  = (Returned [], [GET (files_url None (JStr "o") (JStr "r")) 8000]).
Proof.
  intros res.
  apply (proj1 (success_payload None (fun _ _ => Resolved res) 0 res)
               (JStr "o") (JStr "r")); reflexivity.
Defined.

(** *** Health *)

Lemma run_probe_one net i url :
  run net i (probe_one url)
  = (Returned (if answers_200 (net i (GET url 3000)) then Some (JBool true) else None),
     [GET url 3000]).
Proof.
  unfold probe_one. simpl. destruct (net i (GET url 3000)) as [res|err]; simpl; [|done].
  destruct (get res "status") as [| | |n| | |]; try done.
  destruct n as [|p|p]; try done.
  do 8 (destruct p as [p|p|]; try done).
Qed.

(** C9.  [checkBackendHealth] probes the three candidates in their
    fixed order, stops and returns [true] at the first one that answers
    HTTP 200 (the second one, say, after the first timed out), returns
    [false] exactly when none of the three does, and never throws. *)
Theorem checkBackendHealth_probes (env : option string)
    (net : nat -> request -> outcome) :
  let c0 := baseRoot env +:+ "/health" in
  let c1 := BASE env +:+ "/repos/health" in
  let c2 := BASE env +:+ "/ai/health" in
  run net 0 (checkBackendHealth env)
  = if answers_200 (net 0 (GET c0 3000)) then
      (Returned (JBool true), [GET c0 3000])
    else if answers_200 (net 1 (GET c1 3000)) then
      (Returned (JBool true), [GET c0 3000; GET c1 3000])
    else if answers_200 (net 2 (GET c2 3000)) then
      (Returned (JBool true), [GET c0 3000; GET c1 3000; GET c2 3000])
    else
      (Returned (JBool false), [GET c0 3000; GET c1 3000; GET c2 3000]).
Proof.
  intros c0 c1 c2. unfold checkBackendHealth, candidates. fold c0 c1 c2.
  cbn [probe]. rewrite run_bind, run_probe_one.
  destruct (answers_200 (net 0 (GET c0 3000))); [done|].
  cbn [length Nat.add]. rewrite run_bind, run_probe_one.
  destruct (answers_200 (net 1 (GET c1 3000))); [done|].
  cbn [length Nat.add]. rewrite run_bind, run_probe_one.
  by destruct (answers_200 (net 2 (GET c2 3000))).
Qed.

(** *** Flattening *)

Lemma walk_nil pfx files : walk (JArr []) pfx files = Returned files.
Proof. reflexivity. Qed.

Lemma walk_cons node rest pfx files :
  walk (JArr (node :: rest)) pfx files
  = match classify pfx node with
    | Emit e => walk (JArr rest) pfx (files ++ [e])
    | Recurse children full =>
        match walk children full files with
        | Returned files' => walk (JArr rest) pfx files'
        | Thrown e => Thrown e
        end
    | Drop => walk (JArr rest) pfx files
    end.
Proof.
  unfold classify. destruct node as [| |b|n|s|items|prop]; try reflexivity.
  - by destruct b.
  - simpl. by destruct (negb _).
  - simpl. by destruct (JsString.truthy s).
  - cbn [truthy is_object andb negb get].
    change (walk (JArr (JObj prop :: rest)) pfx files)
      with (if is_str (nodeType (JObj prop)) "file" then
              walk (JArr rest) pfx (files ++ [entry_of pfx (JObj prop)])
            else if is_str (nodeType (JObj prop)) "dir"
                    || is_str (nodeType (JObj prop)) "directory"
                    || truthy (prop "children") then
              if truthy (prop "children") then
                match walk (prop "children") (full_path pfx (JObj prop)) files with
                | Returned files' => walk (JArr rest) pfx files'
                | Thrown e => Thrown e
                end
              else walk (JArr rest) pfx files
            else walk (JArr rest) pfx files).
    destruct (is_str (nodeType (JObj prop)) "file"); [done|].
    destruct (is_str _ "dir" || is_str _ "directory" || truthy (prop "children"));
      [|done].
    unfold or_else. by destruct (truthy (prop "children")).
Qed.

(** C5, as stated, fails: a node without [type] and without [children]
    whose [file_type] is ['file'] is emitted, not dropped. *)
Lemma flattenFiles_file_type :
  let node := obj [("name", JStr "a.js"); ("file_type", JStr "file")] in
  get node "type" = JUndefined /\
  get node "children" = JUndefined /\
  flattenFiles (JArr [node]) = Returned [{| path := JStr "a.js"; size := JNum 0 |}].
Proof. repeat split. Qed.

(** C5, amended.  [flattenFiles] walks the nodes in order, and a node
    that is an object is emitted exactly when [type], or [file_type]
    when [type] is absent or falsy, is exactly ['file']; otherwise it is
    recursed into (its [children], or nothing when they are falsy,
    walked under the node's own path) exactly when that type is ['dir']
    or ['directory'] or its [children] are truthy; any other node is
    dropped.  The response [{files: [{name: "src", type: "dir",
    children: [{name: "index.js", type: "file", path: "src/index.js",
    size: 1200}]}]}] resolves to [[{path: "src/index.js", size: 1200}]]. *)
Theorem flattenFiles_classifies :
  (forall pfx files, walk (JArr []) pfx files = Returned files) /\
  (forall node rest pfx files,
     walk (JArr (node :: rest)) pfx files
     = match classify pfx node with
       | Emit e => walk (JArr rest) pfx (files ++ [e])
       | Recurse children full =>
           match walk children full files with
           | Returned files' => walk (JArr rest) pfx files'
           | Thrown e => Thrown e
           end
       | Drop => walk (JArr rest) pfx files
       end) /\
  (forall pfx node,
     truthy node && is_object node = false -> classify pfx node = Drop) /\
  (forall pfx node,
     truthy node && is_object node = true ->
     (classify pfx node = Emit (entry_of pfx node) <-> nodeType node = JStr "file") /\
     (classify pfx node
      = Recurse (or_else (get node "children") (JArr [])) (full_path pfx node) <->
        nodeType node <> JStr "file" /\
        (nodeType node = JStr "dir" \/ nodeType node = JStr "directory" \/
         truthy (get node "children") = true)) /\
     (classify pfx node = Drop <->
        nodeType node <> JStr "file" /\ nodeType node <> JStr "dir" /\
        nodeType node <> JStr "directory" /\ truthy (get node "children") = false)) /\
  (forall env net i owner repo,
     truthy owner = true -> truthy repo = true ->
     net i (GET (files_url env owner repo) 8000)
     = Resolved (obj [("status", JNum 200); ("data", sample_response)]) ->
     fst (run net i (fetchRepoFiles env owner repo))
     = Returned [{| path := JStr "src/index.js"; size := JNum 1200 |}]).
Proof.
  split; [exact walk_nil|]. split; [exact walk_cons|]. split; [|split].
  - intros pfx node Hobj. unfold classify. by rewrite Hobj.
  - intros pfx node Hobj. unfold classify. rewrite Hobj. cbn [negb].
    assert (Hstr : forall v s, is_str v s = true <-> v = JStr s).
    { intros v s. destruct v; simpl; try (split; [done|discriminate]).
      rewrite String.eqb_eq. split; [by intros ->|by intros [= ->]]. }
    assert (Hstr' : forall v s, is_str v s = false <-> v <> JStr s).
    { intros v s. rewrite <- Hstr. by destruct (is_str v s). }
    destruct (is_str (nodeType node) "file") eqn:Hfile.
    { apply Hstr in Hfile. intuition congruence. }
    apply Hstr' in Hfile.
    destruct (is_str (nodeType node) "dir") eqn:Hdir; cbn [orb].
    { apply Hstr in Hdir. intuition congruence. }
    destruct (is_str (nodeType node) "directory") eqn:Hdy; cbn [orb].
    { apply Hstr in Hdy. intuition congruence. }
    apply Hstr' in Hdir, Hdy.
    destruct (truthy (get node "children")) eqn:Hc; intuition congruence.
  - intros env net i owner repo Ho Hr Hnet.
    unfold fetchRepoFiles. rewrite Ho, Hr. cbn [negb orb].
    fold (files_url env owner repo). rewrite run_await_try, Hnet. reflexivity.
Qed.

Lemma flattenFiles_classifies_witness :
  let net := fun (_ : nat) (_ : request) =>
               Resolved (obj [("status", JNum 200); ("data", sample_response)]) in
  fst (run net 0 (fetchRepoFiles None (JStr "octo") (JStr "demo")))
  = Returned [{| path := JStr "src/index.js"; size := JNum 1200 |}].
Proof.
  intros net.
  apply (proj2 (proj2 (proj2 (proj2 flattenFiles_classifies))) None net 0
           (JStr "octo") (JStr "demo")); reflexivity.
Defined.

End BackendFacts.
